(** * RingMPSC: a ring-decomposed multi-producer single-consumer channel

    A shallow embedding of [include/ringmpsc.hpp] and the properties of its
    backoff primitive, its SPSC ring and its MPSC channel.

    Conventions of the embedding
    - [std::uint32_t], [std::uint64_t] and [std::size_t] values are integers
      in [Z]; every arithmetic operation of the source that can wrap is
      followed by [u32] or [u64] (a 64-bit [std::size_t] is assumed, as on
      the x86-64 and aarch64 targets the header names).
    - an atomic is the value it holds: the model is sequential, one operation
      at a time, in the order the threads' operations are linearised.
    - [std::array<T, CAPACITY>] is a [list T]; a [std::span] into it is an
      offset and a size. *)

From stdpp Require Import base numbers list.

Local Open Scope Z_scope.

(** ** Machine integers *)

Definition u32 (z : Z) : Z := z mod 2 ^ 32.
Definition u64 (z : Z) : Z := z mod 2 ^ 64.

(** ** Configuration *)

Record Config := mkConfig {
  ring_bits : Z;
  max_producers : Z;
  enable_metrics : bool
}.

Definition default_config : Config := mkConfig 16 16 false.
Definition low_latency_config : Config := mkConfig 12 16 false.
Definition high_throughput_config : Config := mkConfig 18 32 false.

(** The two [static_assert]s of [Ring] and the one of [Channel]. *)
Definition config_ok (config : Config) : Prop :=
  0 <= ring_bits config < 64 /\ 0 < max_producers config < 2 ^ 64.

Definition is_power_of_two (v : Z) : bool :=
  negb (v =? 0) && (Z.land v (u64 (v - 1)) =? 0).

(** ** Backoff *)

Module Backoff.

Definition SPIN_LIMIT : Z := 6.
Definition YIELD_LIMIT : Z := 10.

Record t := mk { step_ : Z }.

Definition fresh : t := mk 0.

(** Number of [cpu_relax] instructions one [spin] executes. *)
Definition spins (b : t) : Z :=
  u32 (Z.shiftl 1 (Z.min (step_ b) SPIN_LIMIT)).

Definition spin (b : t) : t :=
  if step_ b <=? SPIN_LIMIT then mk (u32 (step_ b + 1)) else b.

Definition snooze (b : t) : t :=
  if step_ b <=? SPIN_LIMIT then spin b
  else if step_ b <=? YIELD_LIMIT then mk (u32 (step_ b + 1))
  else b.

Definition is_completed (b : t) : bool := YIELD_LIMIT <? step_ b.

Definition reset (b : t) : t := mk 0.

(** A caller's run of calls on one Backoff. *)
Inductive call := Spin | Snooze.

Definition do_call (b : t) (c : call) : t :=
  match c with Spin => spin b | Snooze => snooze b end.

Definition run (b : t) (cs : list call) : t := foldl do_call b cs.

End Backoff.

(** ** Metrics, spans and reservations *)

Record Metrics := mkMetrics {
  messages_sent : Z;
  messages_received : Z;
  batches_sent : Z;
  batches_received : Z;
  reserve_spins : Z
}.

Definition no_metrics : Metrics := mkMetrics 0 0 0 0 0.

(** A [std::span] into a ring's [buffer_]: offset of its first cell and
    number of cells. *)
Record Span := mkSpan { data : Z; size : Z }.

Record Reservation := mkReservation { slice : Span; pos : Z }.

(** The cells a span covers, and a copy into the cells from offset [off]. *)
Definition span_read {T} (buf : list T) (s : Span) : list T :=
  take (Z.to_nat (size s)) (drop (Z.to_nat (data s)) buf).

Definition copy_to {T} (src : list T) (off : Z) (dst : list T) : list T :=
  list_inserts (Z.to_nat off) src dst.

(** ** SPSC ring *)

Module Ring.

Record t (T : Type) := mk {
  tail_ : Z;
  cached_head_ : Z;
  head_ : Z;
  cached_tail_ : Z;
  active_ : bool;
  closed_ : bool;
  metrics_ : Metrics;
  buffer_ : list T
}.
Arguments mk {T}.
Arguments tail_ {T}.
Arguments cached_head_ {T}.
Arguments head_ {T}.
Arguments cached_tail_ {T}.
Arguments active_ {T}.
Arguments closed_ {T}.
Arguments metrics_ {T}.
Arguments buffer_ {T}.

Section Ops.
Context (config : Config) {T : Type}.

Definition CAPACITY : Z := Z.shiftl 1 (ring_bits config).
Definition MASK : Z := CAPACITY - 1.

Definition capacity : Z := CAPACITY.
Definition mask : Z := MASK.

(** Field stores. *)
Definition set_tail (v : Z) (r : t T) : t T :=
  mk v (cached_head_ r) (head_ r) (cached_tail_ r) (active_ r)
     (closed_ r) (metrics_ r) (buffer_ r).
Definition set_cached_head (v : Z) (r : t T) : t T :=
  mk (tail_ r) v (head_ r) (cached_tail_ r) (active_ r)
     (closed_ r) (metrics_ r) (buffer_ r).
Definition set_head (v : Z) (r : t T) : t T :=
  mk (tail_ r) (cached_head_ r) v (cached_tail_ r) (active_ r)
     (closed_ r) (metrics_ r) (buffer_ r).
Definition set_cached_tail (v : Z) (r : t T) : t T :=
  mk (tail_ r) (cached_head_ r) (head_ r) v (active_ r)
     (closed_ r) (metrics_ r) (buffer_ r).
Definition set_active (v : bool) (r : t T) : t T :=
  mk (tail_ r) (cached_head_ r) (head_ r) (cached_tail_ r) v
     (closed_ r) (metrics_ r) (buffer_ r).
Definition set_closed (v : bool) (r : t T) : t T :=
  mk (tail_ r) (cached_head_ r) (head_ r) (cached_tail_ r) (active_ r)
     v (metrics_ r) (buffer_ r).
Definition set_metrics (v : Metrics) (r : t T) : t T :=
  mk (tail_ r) (cached_head_ r) (head_ r) (cached_tail_ r) (active_ r)
     (closed_ r) v (buffer_ r).
Definition set_buffer (v : list T) (r : t T) : t T :=
  mk (tail_ r) (cached_head_ r) (head_ r) (cached_tail_ r) (active_ r)
     (closed_ r) (metrics_ r) v.

(** [Ring() = default]: every position is 0; [buf] is whatever the
    storage of [buffer_] holds, [CAPACITY] cells of it. *)
Definition init (buf : list T) : t T :=
  mk 0 0 0 0 false false no_metrics buf.

Definition len (r : t T) : Z := u64 (tail_ r - head_ r).

Definition is_empty (r : t T) : bool := tail_ r =? head_ r.

Definition is_full (r : t T) : bool := CAPACITY <=? len r.

Definition is_closed (r : t T) : bool := closed_ r.

Definition make_reservation (tail n : Z) : option Reservation :=
  let idx := Z.land tail MASK in
  let contiguous := Z.min n (CAPACITY - idx) in
  Some (mkReservation (mkSpan idx contiguous) tail).

Definition reserve (n : Z) (r : t T) : option Reservation * t T :=
  if (n =? 0) || (CAPACITY <? n) then (None, r)
  else
    let tail := tail_ r in
    let space := u64 (CAPACITY - u64 (tail - cached_head_ r)) in
    if n <=? space then (make_reservation tail n, r)
    else
      let r := set_cached_head (head_ r) r in
      let space := u64 (CAPACITY - u64 (tail - cached_head_ r)) in
      if (space <? n) || is_closed r then (None, r)
      else (make_reservation tail n, r).

(** The loop of [reserve_with_backoff].  The ring is shared with the
    consumer thread: [env k] is what the other threads did to the ring
    before this thread's attempt number [k] (the identity when the
    producer runs alone).  The third component of the result is the
    number of [reserve] calls made; [None] is an exhausted [fuel]. *)
Fixpoint reserve_with_backoff_loop (fuel : nat) (env : nat → t T → t T)
    (k : nat) (backoff : Backoff.t) (n : Z) (r : t T)
    : option (option Reservation * t T * nat) :=
  if Backoff.is_completed backoff then Some (None, r, k)
  else
    match fuel with
    | O => None
    | S fuel' =>
        match reserve n (env k r) with
        | (Some rsv, r) => Some (Some rsv, r, S k)
        | (None, r) =>
            if is_closed r then Some (None, r, S k)
            else reserve_with_backoff_loop fuel' env (S k)
                   (Backoff.snooze backoff) n r
        end
    end.

Definition reserve_with_backoff (fuel : nat) (env : nat → t T → t T)
    (n : Z) (r : t T) : option (option Reservation * t T * nat) :=
  reserve_with_backoff_loop fuel env 0 Backoff.fresh n r.

Definition commit (n : Z) (r : t T) : t T :=
  let r := set_tail (u64 (tail_ r + u64 n)) r in
  if enable_metrics config then
    let m := metrics_ r in
    set_metrics (mkMetrics (u64 (messages_sent m + n)) (messages_received m)
                           (u64 (batches_sent m + 1)) (batches_received m)
                           (reserve_spins m)) r
  else r.

Definition readable_span (head avail : Z) : option Span :=
  let idx := Z.land head MASK in
  let contiguous := Z.min avail (CAPACITY - idx) in
  Some (mkSpan idx contiguous).

Definition readable (r : t T) : option Span * t T :=
  let head := head_ r in
  let avail := u64 (cached_tail_ r - head) in
  if avail =? 0 then
    let r := set_cached_tail (tail_ r) r in
    let avail := u64 (cached_tail_ r - head) in
    if avail =? 0 then (None, r)
    else (readable_span head avail, r)
  else (readable_span head avail, r).

Definition received_metrics (n : Z) (r : t T) : t T :=
  if enable_metrics config then
    let m := metrics_ r in
    set_metrics (mkMetrics (messages_sent m) (u64 (messages_received m + n))
                           (batches_sent m) (u64 (batches_received m + 1))
                           (reserve_spins m)) r
  else r.

Definition advance (n : Z) (r : t T) : t T :=
  let r := set_head (u64 (head_ r + u64 n)) r in
  received_metrics n r.

(** A handler is a state [H] and its [process]: it is handed the cell at
    an index of the buffer.  [None] is an exhausted [fuel]. *)
Fixpoint consume_loop {H : Type} (fuel : nat) (process : H → list T → Z → H)
    (buf : list T) (pos tail count : Z) (h : H) : option (Z * H) :=
  if pos =? tail then Some (count, h)
  else
    match fuel with
    | O => None
    | S fuel' =>
        let idx := Z.land pos MASK in
        consume_loop fuel' process buf (u64 (pos + 1)) tail
          (u64 (count + 1)) (process h buf idx)
    end.

Definition consume_batch {H : Type} (fuel : nat)
    (process : H → list T → Z → H) (h : H) (r : t T)
    : option (Z * H * t T) :=
  let head := head_ r in
  let tail := tail_ r in
  let avail := u64 (tail - head) in
  if avail =? 0 then Some (0, h, r)
  else
    match consume_loop fuel process (buffer_ r) head tail 0 h with
    | None => None
    | Some (count, h) =>
        Some (count, h, received_metrics count (set_head tail r))
    end.

Definition send (items : list T) (r : t T) : Z * t T :=
  match reserve (Z.of_nat (length items)) r with
  | (None, r) => (0, r)
  | (Some rsv, r) =>
      let n := size (slice rsv) in
      let r := set_buffer
                 (copy_to (take (Z.to_nat n) items) (data (slice rsv))
                    (buffer_ r)) r in
      (n, commit n r)
  end.

Definition recv (out : list T) (r : t T) : Z * list T * t T :=
  match readable r with
  | (None, r) => (0, out, r)
  | (Some s, r) =>
      let n := Z.min (size s) (Z.of_nat (length out)) in
      let out := copy_to (take (Z.to_nat n) (span_read (buffer_ r) s)) 0 out in
      (n, out, advance n r)
  end.

Definition close (r : t T) : t T := set_closed true r.

Definition get_metrics (r : t T) : Metrics :=
  if enable_metrics config then metrics_ r else no_metrics.

Definition mark_active (r : t T) : t T := set_active true r.

End Ops.

End Ring.

(** ** MPSC channel *)

Module Channel.

(** A producer handle: [ring] is the index in [rings_] of the ring the
    handle points to. *)
Record Producer := mkProducer { ring : Z; id : Z }.

Inductive RegisterError := TooManyProducers | Closed.

Inductive call := Register | Close.

Record t (T : Type) := mk {
  rings_ : list (Ring.t T);
  producer_count_ : Z;
  closed_ : bool
}.
Arguments mk {T}.
Arguments rings_ {T}.
Arguments producer_count_ {T}.
Arguments closed_ {T}.

(** One ring's [recv] as the channel's [recv] saw it: the ring's index,
    the total written to [out] before the call and the call's result. *)
Record Visit := mkVisit { v_ring : Z; v_total : Z; v_count : Z }.

Section Ops.
Context (config : Config) {T : Type}.

Definition set_rings (v : list (Ring.t T)) (c : t T) : t T :=
  mk v (producer_count_ c) (closed_ c).
Definition set_producer_count (v : Z) (c : t T) : t T :=
  mk (rings_ c) v (closed_ c).
Definition set_closed (v : bool) (c : t T) : t T :=
  mk (rings_ c) (producer_count_ c) v.

(** [rings_{}]: [max_producers] value-initialised rings ([zero] is the
    value-initialised [T]). *)
Definition init (zero : T) : t T :=
  mk (replicate (Z.to_nat (max_producers config))
        (Ring.init (replicate (Z.to_nat (Ring.CAPACITY config)) zero)))
     0 false.

Definition register_producer (c : t T) : (RegisterError + Producer) * t T :=
  if closed_ c then (inl Closed, c)
  else
    let id := producer_count_ c in
    let c := set_producer_count (u64 (producer_count_ c + 1)) c in
    if max_producers config <=? id then
      let c := set_producer_count (u64 (producer_count_ c - 1)) c in
      (inl TooManyProducers, c)
    else
      let c := set_rings (alter Ring.mark_active (Z.to_nat id) (rings_ c)) c in
      (inr (mkProducer id id), c).

(** The calls through a handle.  A handle whose [ring] is not a ring of
    the channel is not one [register_producer] returned. *)
Definition producer_reserve (p : Producer) (n : Z) (c : t T)
    : option Reservation * t T :=
  match rings_ c !! Z.to_nat (ring p) with
  | Some r =>
      let '(res, r) := Ring.reserve config n r in
      (res, set_rings (<[Z.to_nat (ring p) := r]> (rings_ c)) c)
  | None => (None, c)
  end.

Definition producer_commit (p : Producer) (n : Z) (c : t T) : t T :=
  set_rings (alter (Ring.commit config n) (Z.to_nat (ring p)) (rings_ c)) c.

Definition producer_send (p : Producer) (items : list T) (c : t T)
    : Z * t T :=
  match rings_ c !! Z.to_nat (ring p) with
  | Some r =>
      let '(n, r) := Ring.send config items r in
      (n, set_rings (<[Z.to_nat (ring p) := r]> (rings_ c)) c)
  | None => (0, c)
  end.

(** The loop of [recv]: [todo] is [count - i].  The last component is the
    trace of the rings' [recv] calls, oldest first. *)
Fixpoint recv_loop (todo : nat) (i total : Z) (out : list T)
    (rings : list (Ring.t T)) (visits : list Visit)
    : Z * list T * list (Ring.t T) * list Visit :=
  match todo with
  | O => (total, out, rings, visits)
  | S todo' =>
      if total <? Z.of_nat (length out) then
        match rings !! Z.to_nat i with
        | Some r =>
            let '(n, sub, r) :=
              Ring.recv config (drop (Z.to_nat total) out) r in
            recv_loop todo' (i + 1) (u64 (total + n))
              (take (Z.to_nat total) out ++ sub)
              (<[Z.to_nat i := r]> rings)
              (visits ++ [mkVisit i total n])
        | None => (total, out, rings, visits)
        end
      else (total, out, rings, visits)
  end.

Definition recv_traced (out : list T) (c : t T)
    : Z * list T * t T * list Visit :=
  let count := producer_count_ c in
  let '(total, out, rings, visits) :=
    recv_loop (Z.to_nat count) 0 0 out (rings_ c) [] in
  (total, out, set_rings rings c, visits).

Definition recv (out : list T) (c : t T) : Z * list T * t T :=
  let '(total, out, c, _) := recv_traced out c in (total, out, c).

Fixpoint consume_all_loop {H : Type} (todo fuel : nat)
    (process : H → list T → Z → H) (i total : Z) (h : H)
    (rings : list (Ring.t T)) : option (Z * H * list (Ring.t T)) :=
  match todo with
  | O => Some (total, h, rings)
  | S todo' =>
      match rings !! Z.to_nat i with
      | Some r =>
          match Ring.consume_batch config fuel process h r with
          | Some (n, h, r) =>
              consume_all_loop todo' fuel process (i + 1) (u64 (total + n)) h
                (<[Z.to_nat i := r]> rings)
          | None => None
          end
      | None => Some (total, h, rings)
      end
  end.

Definition consume_all {H : Type} (fuel : nat)
    (process : H → list T → Z → H) (h : H) (c : t T)
    : option (Z * H * t T) :=
  match consume_all_loop (Z.to_nat (producer_count_ c)) fuel process 0 0 h
          (rings_ c) with
  | Some (total, h, rings) => Some (total, h, set_rings rings c)
  | None => None
  end.

Fixpoint close_loop (todo : nat) (i : Z) (rings : list (Ring.t T))
    : list (Ring.t T) :=
  match todo with
  | O => rings
  | S todo' =>
      close_loop todo' (i + 1) (alter Ring.close (Z.to_nat i) rings)
  end.

Definition close (c : t T) : t T :=
  let c := set_closed true c in
  set_rings (close_loop (Z.to_nat (producer_count_ c)) 0 (rings_ c)) c.

Definition is_closed (c : t T) : bool := closed_ c.
Definition producer_count (c : t T) : Z := producer_count_ c.

(** The loop of [get_metrics]: [m] accumulates the counters of the rings
    below [i]; [reserve_spins] is not summed. *)
Fixpoint get_metrics_loop (todo : nat) (i : Z) (m : Metrics)
    (rings : list (Ring.t T)) : Metrics :=
  match todo with
  | O => m
  | S todo' =>
      match rings !! Z.to_nat i with
      | Some r =>
          let rm := Ring.get_metrics config r in
          get_metrics_loop todo' (i + 1)
            (mkMetrics (u64 (messages_sent m + messages_sent rm))
                       (u64 (messages_received m + messages_received rm))
                       (u64 (batches_sent m + batches_sent rm))
                       (u64 (batches_received m + batches_received rm))
                       (reserve_spins m))
            rings
      | None => m
      end
  end.

Definition get_metrics (c : t T) : Metrics :=
  get_metrics_loop (Z.to_nat (producer_count_ c)) 0 no_metrics (rings_ c).

(** A run of [register_producer] and [close] calls on the channel, with
    the result of each [register_producer]. *)
Fixpoint run (calls : list call) (c : t T)
    : list (RegisterError + Producer) * t T :=
  match calls with
  | [] => ([], c)
  | Register :: calls =>
      let '(res, c) := register_producer c in
      let '(rest, c) := run calls c in
      (res :: rest, c)
  | Close :: calls => run calls (close c)
  end.

End Ops.

End Channel.

(** ** One producer and one consumer on a ring

    The calls §4.2 allows the two sides of one ring, in the order they take
    effect.  A [session] is the ring with what each side holds: the
    producer its last reservation, the consumer its last readable slice;
    [sent] and [received] log the values committed and the values read. *)

Module Session.

Record t (T : Type) := mk {
  ring : Ring.t T;
  reservation : option Reservation;
  slice_read : option Span;
  sent : list T;
  received : list T
}.
Arguments mk {T}.
Arguments ring {T}.
Arguments reservation {T}.
Arguments slice_read {T}.
Arguments sent {T}.
Arguments received {T}.

Inductive op (T : Type) :=
| Reserve (n : Z)
| Write (i : Z) (v : T)
| Commit
| Send (items : list T)
| Readable
| Advance (n : Z)
| Recv (out : list T)
| Close.
Arguments Reserve {T}.
Arguments Write {T}.
Arguments Commit {T}.
Arguments Send {T}.
Arguments Readable {T}.
Arguments Advance {T}.
Arguments Recv {T}.
Arguments Close {T}.

Section Ops.
Context (config : Config) {T : Type}.

Definition init (buf : list T) : t T := mk (Ring.init buf) None None [] [].

(** One call.  [None]: the call is outside the contract (a request that
    is no [std::size_t], a write outside the reserved slice, a commit
    without a reservation, an advance beyond the slice last returned by
    [readable]). *)
Definition step (s : t T) (o : op T) : option (t T) :=
  let r := ring s in
  match o with
  | Reserve n =>
      if (0 <=? n) && (n <? 2 ^ 64) then
        let '(res, r) := Ring.reserve config n r in
        Some (mk r (match res with Some x => Some x | None => reservation s end)
                 (slice_read s) (sent s) (received s))
      else None
  | Write i v =>
      match reservation s with
      | Some x =>
          if (0 <=? i) && (i <? size (slice x)) then
            Some (mk (Ring.set_buffer
                        (<[Z.to_nat (data (slice x) + i) := v]> (Ring.buffer_ r)) r)
                     (reservation s) (slice_read s) (sent s) (received s))
          else None
      | None => None
      end
  | Commit =>
      match reservation s with
      | Some x =>
          Some (mk (Ring.commit config (size (slice x)) r) None (slice_read s)
                   (sent s ++ span_read (Ring.buffer_ r) (slice x))
                   (received s))
      | None => None
      end
  | Send items =>
      let '(n, r) := Ring.send config items r in
      Some (mk r (if n =? 0 then reservation s else None) (slice_read s)
               (sent s ++ take (Z.to_nat n) items) (received s))
  | Readable =>
      let '(res, r) := Ring.readable config r in
      Some (mk r (reservation s) res (sent s) (received s))
  | Advance n =>
      match slice_read s with
      | Some sl =>
          if (0 <=? n) && (n <=? size sl) then
            Some (mk (Ring.advance config n r) (reservation s) None (sent s)
                     (received s ++ take (Z.to_nat n) (span_read (Ring.buffer_ r) sl)))
          else None
      | None => None
      end
  | Recv out =>
      let '(n, out, r) := Ring.recv config out r in
      Some (mk r (reservation s) None (sent s)
               (received s ++ take (Z.to_nat n) out))
  | Close =>
      Some (mk (Ring.close r) (reservation s) (slice_read s) (sent s)
               (received s))
  end.

Fixpoint run (s : t T) (ops : list (op T)) : option (t T) :=
  match ops with
  | [] => Some s
  | o :: ops =>
      match step s o with
      | Some s => run s ops
      | None => None
      end
  end.

End Ops.

End Session.

(** ** Configurations and values used in the examples *)

Definition cfg4 : Config := mkConfig 4 2 false.

(** Scenario S4: two producers, the first sends [10, 11], the second
    [20, 21]. *)
Definition two_producers (config : Config) : Channel.t Z :=
  let c := Channel.init config 0 in
  let c := (Channel.register_producer config c).2 in
  let c := (Channel.register_producer config c).2 in
  let c := (Channel.producer_send config (Channel.mkProducer 0 0) [10; 11] c).2 in
  (Channel.producer_send config (Channel.mkProducer 1 1) [20; 21] c).2.


(** ** Notions the properties are stated with *)

(** The channel has its [max_producers] rings and has registered at most
    that many producers. *)
Definition channel_wf (config : Config) {T} (c : Channel.t T) : Prop :=
  length (Channel.rings_ c) = Z.to_nat (max_producers config)
  ∧ 0 <= Channel.producer_count_ c <= max_producers config.

(** What §4.3 says a run of calls returns, on a channel that has registered
    [count] producers: [Closed] once the channel is closed,
    [TooManyProducers] once [count] has reached [maxp], and otherwise a
    handle whose id is [count]. *)
Fixpoint register_results (maxp : Z) (closed : bool) (count : Z)
    (calls : list Channel.call)
    : list (Channel.RegisterError + Channel.Producer) :=
  match calls with
  | [] => []
  | Channel.Close :: calls => register_results maxp true count calls
  | Channel.Register :: calls =>
      if closed then inl Channel.Closed :: register_results maxp true count calls
      else if maxp <=? count then
        inl Channel.TooManyProducers :: register_results maxp false count calls
      else
        inr (Channel.mkProducer count count)
          :: register_results maxp false (count + 1) calls
  end.

(** What holds of a session between any two calls: the positions are
    ordered and less than a lap apart, the cells from head to tail hold the
    values sent and not yet received, the values received are the first of
    the values sent, and what each side holds is still good. *)
Record session_inv (config : Config) {T} (s : Session.t T) : Prop := {
  inv_buffer :
    length (Ring.buffer_ (Session.ring s)) = Z.to_nat (Ring.CAPACITY config);
  inv_cached_head :
    0 <= Ring.cached_head_ (Session.ring s) <= Ring.head_ (Session.ring s);
  inv_cached_tail :
    Ring.head_ (Session.ring s) <= Ring.cached_tail_ (Session.ring s)
    <= Ring.tail_ (Session.ring s);
  inv_room :
    Ring.tail_ (Session.ring s) - Ring.cached_head_ (Session.ring s)
    <= Ring.CAPACITY config;
  inv_tail : Ring.tail_ (Session.ring s) = Z.of_nat (length (Session.sent s));
  inv_no_overflow : Ring.tail_ (Session.ring s) < 2 ^ 64;
  inv_head :
    Ring.head_ (Session.ring s) = Z.of_nat (length (Session.received s));
  inv_received :
    Session.received s
    = take (length (Session.received s)) (Session.sent s);
  inv_cells :
    ∀ p, Ring.head_ (Session.ring s) <= p < Ring.tail_ (Session.ring s) →
      Ring.buffer_ (Session.ring s) !! Z.to_nat (p mod Ring.CAPACITY config)
      = Session.sent s !! Z.to_nat p;
  inv_reservation :
    ∀ x, Session.reservation s = Some x →
      pos x = Ring.tail_ (Session.ring s)
      ∧ data (slice x) = Ring.tail_ (Session.ring s) mod Ring.CAPACITY config
      ∧ 1 <= size (slice x)
      ∧ data (slice x) + size (slice x) <= Ring.CAPACITY config
      ∧ Ring.tail_ (Session.ring s) + size (slice x)
        - Ring.cached_head_ (Session.ring s) <= Ring.CAPACITY config;
  inv_slice_read :
    ∀ sl, Session.slice_read s = Some sl →
      data sl = Ring.head_ (Session.ring s) mod Ring.CAPACITY config
      ∧ 0 <= size sl
      ∧ data sl + size sl <= Ring.CAPACITY config
      ∧ Ring.head_ (Session.ring s) + size sl
        <= Ring.cached_tail_ (Session.ring s)
}.

(** The ids of the handles among the results of a run. *)
Definition handle_ids (results : list (Channel.RegisterError + Channel.Producer))
    : list Z :=
  omap (λ res, match res with inr p => Some (Channel.id p) | inl _ => None end)
    results.

(** The trace of a channel [recv] from ring [i] on, [total] items being
    already written to [out]: ring after ring in index order, each visited
    while [out] is not full and asked to fill [out] from offset [total]. *)
Fixpoint visits_from (config : Config) {T} (rings : list (Ring.t T))
    (out : list T) (i total : Z) (visits : list Channel.Visit) : Prop :=
  match visits with
  | [] => True
  | v :: visits =>
      Channel.v_ring v = i
      ∧ Channel.v_total v = total
      ∧ total < Z.of_nat (length out)
      ∧ (∃ r, rings !! Z.to_nat i = Some r
              ∧ (Ring.recv config (drop (Z.to_nat total) out) r).1.1
                = Channel.v_count v)
      ∧ visits_from config rings out (i + 1) (total + Channel.v_count v) visits
  end.

Definition received_total (visits : list Channel.Visit) : Z :=
  foldr (λ v acc, Channel.v_count v + acc) 0 visits.

(** The ring [recv] call a visit stands for, on the rings and the [out]
    the channel's [recv] was called with: ring [v_ring] is handed [out]
    from offset [v_total]. *)
Definition visit_recv (config : Config) {T} (rings : list (Ring.t T))
    (out : list T) (v : Channel.Visit) : option (Z * list T * Ring.t T) :=
  (λ r, Ring.recv config (drop (Z.to_nat (Channel.v_total v)) out) r)
    <$> rings !! Z.to_nat (Channel.v_ring v).

(** The cells that call wrote: as many as it returned, from the front of
    the subspan it was handed. *)
Definition visit_items (config : Config) {T} (rings : list (Ring.t T))
    (out : list T) (v : Channel.Visit) : list T :=
  match visit_recv config rings out v with
  | Some (n, sub, _) => take (Z.to_nat n) sub
  | None => []
  end.

(** The ring that call left. *)
Definition visit_ring (config : Config) {T} (rings : list (Ring.t T))
    (out : list T) (v : Channel.Visit) : option (Ring.t T) :=
  (λ res, res.2) <$> visit_recv config rings out v.

(** C7 as the claim states it: a ring whose [recv] returned fewer items than
    the space left in [out] is the last ring visited. *)
Definition stops_at_first_short (out_len : Z) (visits : list Channel.Visit)
    : Prop :=
  ∀ v w, v ∈ visits → w ∈ visits →
    Channel.v_count v < out_len - Channel.v_total v →
    Channel.v_ring w <= Channel.v_ring v.

(** The logical positions [consume_batch] walks through from [head] up to
    [tail], in the order of the walk (64-bit counters). *)
Definition positions (head tail : Z) : list Z :=
  (λ i : nat, u64 (head + Z.of_nat i)) <$> seq 0 (Z.to_nat (u64 (tail - head))).

(** Fields of a ring hold 64-bit values and the buffer has [CAPACITY] cells. *)
Definition ring_wf (config : Config) {T} (r : Ring.t T) : Prop :=
  0 <= Ring.tail_ r < 2 ^ 64
  ∧ 0 <= Ring.head_ r < 2 ^ 64
  ∧ 0 <= Ring.cached_head_ r < 2 ^ 64
  ∧ 0 <= Ring.cached_tail_ r < 2 ^ 64
  ∧ length (Ring.buffer_ r) = Z.to_nat (Ring.CAPACITY config).

(** The ring as the first [j] attempts of a [reserve_with_backoff] that
    started at attempt number [k0] on ring [r] leave it, when they all fail:
    attempt [k0 + j] calls [reserve] on [env (k0 + j)] of it. *)
Fixpoint ring_after (config : Config) {T} (env : nat → Ring.t T → Ring.t T)
    (n : Z) (k0 : nat) (r : Ring.t T) (j : nat) : Ring.t T :=
  match j with
  | O => r
  | S j' =>
      (Ring.reserve config n (env (k0 + j')%nat (ring_after config env n k0 r j'))).2
  end.

Definition attempt (config : Config) {T} (env : nat → Ring.t T → Ring.t T)
    (n : Z) (r : Ring.t T) (j : nat) : option Reservation * Ring.t T :=
  Ring.reserve config n (env j (ring_after config env n 0 r j)).

(** A 16-slot ring filled by 16 singleton sends (test "ring: backoff on
    full"). *)
Definition full_ring4 : Ring.t Z :=
  foldl (λ r v, (Ring.send cfg4 [v] r).2) (Ring.init (replicate 16 0))
    (seqZ 0 16).

(** Scenario S1 as a run of calls: reserve 4, write 100, 200, 300, 400,
    commit, readable, advance 4. *)
Definition s1_calls : list (Session.op Z) :=
  [Session.Reserve 4; Session.Write 0 100; Session.Write 1 200;
   Session.Write 2 300; Session.Write 3 400; Session.Commit;
   Session.Readable; Session.Advance 4].

(** A handler that collects the cells it is handed. *)
Definition collect (h : list Z) (buf : list Z) (idx : Z) : list Z :=
  h ++ option_list (buf !! Z.to_nat idx).

(** A handler that sums the cells it is handed (the tests' [Handler]). *)
Definition sum_cells (h : Z) (buf : list Z) (idx : Z) : Z :=
  u64 (h + default 0 (buf !! Z.to_nat idx)).

(** ** Notions and examples of the further properties *)

(** A [consume_batch] handler that reads the cell it is handed and feeds the
    value to [f] (the shape of the tests' and the benchmark's handlers). *)
Definition cell_handler {T H} (f : H → T → H) (h : H) (buf : list T) (idx : Z)
    : H :=
  match buf !! Z.to_nat idx with
  | Some v => f h v
  | None => h
  end.

(** Twelve items sent and received on a 16-slot ring: the ring is empty with
    head and tail at 12, four cells short of the end of the buffer. *)
Definition lap_calls : list (Session.op Z) :=
  [Session.Send (seqZ 1 12); Session.Recv (replicate 12 0)].

(** Twelve items sent and five received. *)
Definition pending_calls : list (Session.op Z) :=
  [Session.Send (seqZ 1 12); Session.Recv (replicate 5 0)].

(** Sixteen singleton sends: the ring is full. *)
Definition full_calls : list (Session.op Z) :=
  (λ v, Session.Send [v]) <$> seqZ 0 16.

(** The session a run of calls on a fresh 16-slot ring ends in. *)
Definition session4 (ops : list (Session.op Z)) : Session.t Z :=
  default (Session.init (replicate 16 0))
    (Session.run cfg4 (Session.init (replicate 16 0)) ops).

(** The number of [snooze] calls in a run of calls on a Backoff. *)
Fixpoint count_snoozes (cs : list Backoff.call) : Z :=
  match cs with
  | [] => 0
  | Backoff.Snooze :: cs => 1 + count_snoozes cs
  | Backoff.Spin :: cs => count_snoozes cs
  end.

(** The sum of a list of counters. *)
Definition sumZ (l : list Z) : Z := foldr Z.add 0 l.

(** What a handler's state becomes over one ring's [consume_batch]. *)
Definition batch_fold (config : Config) {T H} (process : H → list T → Z → H)
    (h : H) (r : Ring.t T) : H :=
  foldl (λ h p, process h (Ring.buffer_ r) (p mod Ring.CAPACITY config)) h
    (positions (Ring.head_ r) (Ring.tail_ r)).

(** The rings registered so far. *)
Definition registered {T} (c : Channel.t T) : list (Ring.t T) :=
  take (Z.to_nat (Channel.producer_count_ c)) (Channel.rings_ c).

(** ** A producer and a batch consumer on a ring

    The use the benchmark makes of a ring: the producer reserves, fills and
    commits; the consumer only calls [consume_batch], here with a handler
    that collects the cells it is handed into [received]. *)

Module BatchSession.

Inductive op (T : Type) :=
| Produce (o : Session.op T)
| ConsumeBatch.
Arguments Produce {T}.
Arguments ConsumeBatch {T}.

Section Ops.
Context (config : Config) {T : Type}.

Definition producer_call (o : Session.op T) : bool :=
  match o with
  | Session.Reserve _ | Session.Write _ _ | Session.Commit
  | Session.Send _ | Session.Close => true
  | Session.Readable | Session.Advance _ | Session.Recv _ => false
  end.

Definition step (s : Session.t T) (o : op T) : option (Session.t T) :=
  match o with
  | Produce o => if producer_call o then Session.step config s o else None
  | ConsumeBatch =>
      let r := Session.ring s in
      match Ring.consume_batch config (Z.to_nat (Ring.len r))
              (cell_handler (λ h v, h ++ [v])) [] r with
      | Some (_, vs, r) =>
          Some (Session.mk r (Session.reservation s) None (Session.sent s)
                  (Session.received s ++ vs))
      | None => None
      end
  end.

Fixpoint run (s : Session.t T) (ops : list (op T)) : option (Session.t T) :=
  match ops with
  | [] => Some s
  | o :: ops =>
      match step s o with
      | Some s => run s ops
      | None => None
      end
  end.

End Ops.

End BatchSession.




(** What the counters of a ring say between two calls of a session: with
    metrics enabled, the numbers of items committed and consumed, at most
    one batch per item committed, and no reserve spin; with metrics
    disabled, nothing. *)
Definition metrics_track (config : Config) {T} (s : Session.t T) : Prop :=
  let m := Ring.metrics_ (Session.ring s) in
  if enable_metrics config then
    messages_sent m = Z.of_nat (length (Session.sent s))
    ∧ messages_received m = Z.of_nat (length (Session.received s))
    ∧ 0 <= batches_sent m <= messages_sent m
    ∧ reserve_spins m = 0
  else m = no_metrics.

Definition cfg4m : Config := mkConfig 4 2 true.
(** * Properties *)

(** ** Machine arithmetic *)

Lemma u64_small (z : Z) : 0 <= z < 2 ^ 64 → u64 z = z.
Proof. intros. unfold u64. by apply Z.mod_small. Qed.

Lemma u32_small (z : Z) : 0 <= z < 2 ^ 32 → u32 z = z.
Proof. intros. unfold u32. by apply Z.mod_small. Qed.

Lemma u64_range (z : Z) : 0 <= u64 z < 2 ^ 64.
Proof. unfold u64. apply Z.mod_pos_bound. lia. Qed.

(** ** Backoff *)

Section BackoffFacts.
Import Backoff.

Lemma spin_step (b : t) :
  0 <= step_ b <= SPIN_LIMIT → step_ (spin b) = step_ b + 1.
Proof.
  unfold spin, SPIN_LIMIT. intros Hb.
  destruct (Z.leb_spec (step_ b) 6); [|lia].
  simpl. apply u32_small. lia.
Qed.

Lemma spin_saturated (b : t) : SPIN_LIMIT < step_ b → spin b = b.
Proof.
  unfold spin. intros Hb.
  destruct (Z.leb_spec (step_ b) SPIN_LIMIT); [lia|done].
Qed.

Lemma snooze_step (b : t) :
  0 <= step_ b <= YIELD_LIMIT → step_ (snooze b) = step_ b + 1.
Proof.
  unfold snooze, YIELD_LIMIT. intros Hb.
  destruct (Z.leb_spec (step_ b) SPIN_LIMIT) as [Hs|Hs].
  - apply spin_step. lia.
  - destruct (Z.leb_spec (step_ b) 10); [|lia].
    simpl. apply u32_small. lia.
Qed.

Lemma snooze_saturated (b : t) : YIELD_LIMIT < step_ b → snooze b = b.
Proof.
  unfold snooze, YIELD_LIMIT, SPIN_LIMIT. intros Hb.
  destruct (Z.leb_spec (step_ b) 6); [lia|].
  destruct (Z.leb_spec (step_ b) 10); [lia|done].
Qed.

Lemma spins_step (k : nat) :
  step_ (Nat.iter k spin fresh) = Z.min (Z.of_nat k) (SPIN_LIMIT + 1).
Proof.
  unfold SPIN_LIMIT. induction k as [|k IH]; [done|].
  rewrite Nat.iter_succ.
  destruct (Z.le_gt_cases (Z.of_nat k) 6) as [Hk|Hk].
  - rewrite spin_step; unfold SPIN_LIMIT; lia.
  - rewrite spin_saturated; unfold SPIN_LIMIT; lia.
Qed.

Lemma snoozes_step (k : nat) :
  step_ (Nat.iter k snooze fresh) = Z.min (Z.of_nat k) (YIELD_LIMIT + 1).
Proof.
  unfold YIELD_LIMIT. induction k as [|k IH]; [done|].
  rewrite Nat.iter_succ.
  destruct (Z.le_gt_cases (Z.of_nat k) 10) as [Hk|Hk].
  - rewrite snooze_step; unfold YIELD_LIMIT; lia.
  - rewrite snooze_saturated; unfold YIELD_LIMIT; lia.
Qed.

Lemma completed_call (b : t) (c : call) :
  is_completed b = true → do_call b c = b.
Proof.
  unfold is_completed. intros Hb%Z.ltb_lt.
  destruct c; simpl.
  - apply spin_saturated. unfold SPIN_LIMIT, YIELD_LIMIT in *. lia.
  - by apply snooze_saturated.
Qed.

(** C9.  A fresh Backoff is not completed and no number of [spin] calls
    completes it, [spin] incrementing [step_] only while it is at most
    [SPIN_LIMIT]; [k] calls of [snooze] from the fresh state complete it
    exactly when [k] is at least [YIELD_LIMIT + 1 = 11]; a completed
    Backoff stays completed under any further [spin] and [snooze] calls;
    [reset] makes it not completed again. *)
Theorem backoff_progression :
  is_completed fresh = false
  ∧ (∀ k : nat, is_completed (Nat.iter k spin fresh) = false)
  ∧ (∀ b, 0 <= step_ b <= SPIN_LIMIT → step_ (spin b) = step_ b + 1)
  ∧ (∀ b, SPIN_LIMIT < step_ b → spin b = b)
  ∧ YIELD_LIMIT + 1 = 11
  ∧ (∀ k : nat, is_completed (Nat.iter k snooze fresh) = true ↔ (11 ≤ k)%nat)
  ∧ (∀ b cs, is_completed b = true → is_completed (run b cs) = true)
  ∧ (∀ b, is_completed (reset b) = false).
Proof.
  split_and!; try done.
  - intros k. unfold is_completed. rewrite spins_step.
    unfold YIELD_LIMIT, SPIN_LIMIT. apply Z.ltb_ge. lia.
  - apply spin_step.
  - apply spin_saturated.
  - intros k. unfold is_completed. rewrite snoozes_step, Z.ltb_lt.
    unfold YIELD_LIMIT. lia.
  - intros b cs Hb. unfold run.
    induction cs as [|c cs IH]; simpl; [done|].
    by rewrite completed_call.
Qed.

End BackoffFacts.

(** ** Ring: capacity and index arithmetic *)

Section RingArith.
Context (config : Config) (Hcfg : config_ok config).

Lemma CAPACITY_pow : Ring.CAPACITY config = 2 ^ ring_bits config.
Proof.
  destruct Hcfg as [[Hb _] _]. unfold Ring.CAPACITY.
  by rewrite Z.shiftl_1_l.
Qed.

Lemma CAPACITY_bounds : 1 <= Ring.CAPACITY config <= 2 ^ 63.
Proof.
  destruct Hcfg as [[Hb Hb'] _]. rewrite CAPACITY_pow. split.
  - pose proof (Z.pow_pos_nonneg 2 (ring_bits config)). lia.
  - apply Z.pow_le_mono_r; lia.
Qed.

Lemma land_MASK (x : Z) :
  Z.land x (Ring.MASK config) = x mod Ring.CAPACITY config.
Proof.
  destruct Hcfg as [[Hb _] _]. unfold Ring.MASK. rewrite CAPACITY_pow.
  rewrite <- Z.land_ones by done. by rewrite Z.ones_equiv, <- Z.sub_1_r.
Qed.

Lemma index_range (x : Z) :
  0 <= x mod Ring.CAPACITY config < Ring.CAPACITY config.
Proof. apply Z.mod_pos_bound. pose proof CAPACITY_bounds. lia. Qed.

(** Inside one lap of the buffer the index advances with the position. *)
Lemma index_add (x j : Z) :
  0 <= j → x mod Ring.CAPACITY config + j < Ring.CAPACITY config →
  (x + j) mod Ring.CAPACITY config = x mod Ring.CAPACITY config + j.
Proof.
  intros Hj Hlt. pose proof (index_range x) as Hx.
  rewrite <- Zplus_mod_idemp_l. apply Z.mod_small. lia.
Qed.

(** Two positions less than a lap apart fall on different cells. *)
Lemma index_apart (a b : Z) :
  0 < b - a < Ring.CAPACITY config →
  a mod Ring.CAPACITY config ≠ b mod Ring.CAPACITY config.
Proof.
  intros Hab Heq. pose proof CAPACITY_bounds as Hc.
  pose proof (Z.div_mod a (Ring.CAPACITY config)) as Ha.
  pose proof (Z.div_mod b (Ring.CAPACITY config)) as Hb.
  assert (b - a = Ring.CAPACITY config * (b / Ring.CAPACITY config - a / Ring.CAPACITY config))
    as Hd by lia.
  set (k := b / Ring.CAPACITY config - a / Ring.CAPACITY config) in Hd.
  destruct (Z.le_gt_cases k 0); nia.
Qed.

(** The second [static_assert] of [Ring] holds of every configuration that
    passes the first. *)
Lemma CAPACITY_power_of_two : is_power_of_two (Ring.CAPACITY config) = true.
Proof.
  pose proof CAPACITY_bounds as Hc. destruct Hcfg as [[Hb _] _].
  unfold is_power_of_two.
  destruct (Z.eqb_spec (Ring.CAPACITY config) 0); [lia|]. simpl.
  rewrite u64_small by lia. fold (Ring.MASK config).
  rewrite land_MASK, Z.mod_same by lia. done.
Qed.

End RingArith.

(** ** Ring: reserve *)

Section ReserveFacts.
Context (config : Config) {T : Type}.
Implicit Types (r : Ring.t T) (n : Z).

Local Abbreviation CAPACITY := (Ring.CAPACITY config).
Local Abbreviation MASK := (Ring.MASK config).

(** What a call of [reserve] can do to the ring, and what a reservation it
    returns looks like. *)
Lemma reserve_cases n r res r' :
  Ring.reserve config n r = (res, r') →
  (r' = r ∨ r' = Ring.set_cached_head (Ring.head_ r) r)
  ∧ ∀ x, res = Some x →
      n ≠ 0 ∧ n <= CAPACITY
      ∧ n <= u64 (CAPACITY - u64 (Ring.tail_ r' - Ring.cached_head_ r'))
      ∧ x = mkReservation
              (mkSpan (Z.land (Ring.tail_ r) MASK)
                      (Z.min n (CAPACITY - Z.land (Ring.tail_ r) MASK)))
              (Ring.tail_ r).
Proof.
  unfold Ring.reserve, Ring.make_reservation.
  destruct (Z.eqb_spec n 0) as [->|Hn0]; simpl.
  { intros [= <- <-]. split; [by left|done]. }
  destruct (Z.ltb_spec CAPACITY n) as [Hn|Hn]; simpl.
  { intros [= <- <-]. split; [by left|done]. }
  destruct (Z.leb_spec n (u64 (CAPACITY - u64 (Ring.tail_ r - Ring.cached_head_ r))))
    as [Hfast|Hfast].
  { intros [= <- <-]. split; [by left|]. intros x [= <-]. done. }
  destruct (Z.ltb_spec (u64 (CAPACITY - u64 (Ring.tail_ r - Ring.head_ r))) n)
    as [Hslow|Hslow]; simpl.
  { intros [= <- <-]. split; [by right|done]. }
  destruct (Ring.closed_ r); simpl.
  { intros [= <- <-]. split; [by right|done]. }
  intros [= <- <-]. split; [by right|]. intros x [= <-]. done.
Qed.

Lemma reserve_tail n r : Ring.tail_ (Ring.reserve config n r).2 = Ring.tail_ r.
Proof.
  destruct (Ring.reserve config n r) as [res r'] eqn:E.
  apply reserve_cases in E as [[->| ->] _]; done.
Qed.

(** C10.  A request for no slot or for more than [CAPACITY] slots is
    refused by [reserve] with the ring left as it was (head, tail, cached
    head, closed flag and everything else); hence [send] of an empty slice
    or of one longer than [CAPACITY] returns 0 and leaves the ring as it
    was: nothing is written and nothing committed. *)
Theorem reserve_out_of_range :
  (∀ n r, n = 0 ∨ CAPACITY < n → Ring.reserve config n r = (None, r))
  ∧ (∀ (items : list T) r,
       items = [] ∨ CAPACITY < Z.of_nat (length items) →
       Ring.send config items r = (0, r)).
Proof.
  assert (∀ n r, n = 0 ∨ CAPACITY < n → Ring.reserve config n r = (None, r))
    as Hres.
  { intros n r Hn. unfold Ring.reserve.
    destruct (Z.eqb_spec n 0); [done|].
    destruct (Z.ltb_spec CAPACITY n); [done|lia]. }
  split; [done|].
  intros items r Hi. unfold Ring.send. rewrite Hres; [done|].
  destruct Hi as [->|Hi]; [by left|by right].
Qed.

End ReserveFacts.

(** The witness of C10: on a 16-slot ring holding one item, [reserve 0],
    [reserve 17], [send] of nothing and [send] of 17 items. *)
Lemma reserve_out_of_range_witness :
  let r := (Ring.send cfg4 [5] (Ring.init (replicate 16 0))).2 in
  Ring.reserve cfg4 0 r = (None, r)
  ∧ Ring.reserve cfg4 17 r = (None, r)
  ∧ Ring.send cfg4 [] r = (0, r)
  ∧ Ring.send cfg4 (replicate 17 1) r = (0, r).
Proof.
  intros r.
  pose proof (reserve_out_of_range cfg4 (T := Z)) as [Hres Hsend].
  split_and!.
  - apply Hres. by left.
  - apply Hres. right. reflexivity.
  - apply Hsend. by left.
  - apply Hsend. right. reflexivity.
Defined.

(** C1 (the code departs from it).  On a closed ring whose cached head
    still shows room, [reserve] takes its fast path and returns a
    reservation: the closed flag is read on the slow path only. *)
Theorem reserve_on_closed_ring :
  let r := Ring.close (Ring.init (replicate 16 0)) in
  Ring.is_closed r = true
  ∧ Ring.reserve cfg4 1 r = (Some (mkReservation (mkSpan 0 1) 0), r).
Proof. split; reflexivity. Qed.

(** ** Ring: consume_batch *)

Lemma u64_neg (x : Z) : - 2 ^ 64 <= x < 0 → u64 x = x + 2 ^ 64.
Proof.
  intros Hx. unfold u64. symmetry.
  apply Z.mod_unique with (q := -1); lia.
Qed.

Lemma u64_sub_pred (a b : Z) :
  0 <= a < 2 ^ 64 → 0 <= b < 2 ^ 64 → a ≠ b →
  u64 (a - u64 (b + 1)) = u64 (a - b) - 1 ∧ 1 <= u64 (a - b).
Proof.
  intros Ha Hb Hab.
  assert (u64 (a - u64 (b + 1)) = u64 (a - b - 1)) as ->.
  { unfold u64. rewrite Zminus_mod_idemp_r. f_equal. lia. }
  destruct (Z.lt_ge_cases b a).
  - rewrite !u64_small by lia. lia.
  - rewrite !u64_neg by lia. lia.
Qed.

Lemma u64_sub_0 (a b : Z) :
  0 <= a < 2 ^ 64 → 0 <= b < 2 ^ 64 → u64 (a - b) = 0 → a = b.
Proof.
  intros Ha Hb H0. destruct (decide (a = b)) as [|Hne]; [done|].
  pose proof (u64_sub_pred a b Ha Hb Hne). lia.
Qed.

Lemma positions_nil (pos : Z) : positions pos pos = [].
Proof. unfold positions. by rewrite Z.sub_diag. Qed.

Lemma positions_cons (pos tail : Z) :
  0 <= pos < 2 ^ 64 → 0 <= tail < 2 ^ 64 → pos ≠ tail →
  positions pos tail = pos :: positions (u64 (pos + 1)) tail.
Proof.
  intros Hp Ht Hne. unfold positions.
  destruct (u64_sub_pred tail pos Ht Hp) as [-> Hd]; [done|].
  replace (Z.to_nat (u64 (tail - pos)))
    with (S (Z.to_nat (u64 (tail - pos) - 1))) by lia.
  simpl. rewrite Z.add_0_r, u64_small by done. f_equal.
  rewrite <- fmap_S_seq, <- list_fmap_compose.
  apply list_fmap_ext. intros _ i _. simpl.
  unfold u64. rewrite Zplus_mod_idemp_l. f_equal. lia.
Qed.

Lemma positions_ordered (head tail : Z) :
  0 <= head <= tail → tail < 2 ^ 64 →
  positions head tail = seqZ head (tail - head).
Proof.
  intros Hh Ht. unfold positions, seqZ.
  rewrite (u64_small (tail - head)) by lia.
  apply list_fmap_ext. intros j i Hi%lookup_seq. simpl.
  rewrite u64_small; lia.
Qed.

Section ConsumeFacts.
Context (config : Config) (Hcfg : config_ok config) {T H : Type}.
Context (process : H → list T → Z → H).

Local Abbreviation CAPACITY := (Ring.CAPACITY config).

Lemma consume_loop_run (buf : list T) (tail : Z) (fuel : nat) :
  ∀ pos count h,
    0 <= pos < 2 ^ 64 → 0 <= tail < 2 ^ 64 →
    0 <= count → count + u64 (tail - pos) < 2 ^ 64 →
    (Z.to_nat (u64 (tail - pos)) ≤ fuel)%nat →
    Ring.consume_loop config fuel process buf pos tail count h
    = Some (count + u64 (tail - pos),
            foldl (λ h p, process h buf (p mod CAPACITY)) h (positions pos tail)).
Proof.
  induction fuel as [|fuel IH]; intros pos count h Hp Ht Hc Hcd Hfuel.
  - assert (pos = tail) as ->.
    { symmetry. apply u64_sub_0; [done..|]. pose proof (u64_range (tail - pos)). lia. }
    simpl. rewrite Z.eqb_refl, positions_nil, Z.sub_diag. simpl.
    do 2 f_equal. unfold u64. rewrite Z.mod_0_l; lia.
  - simpl. destruct (Z.eqb_spec pos tail) as [->|Hne].
    + rewrite positions_nil, Z.sub_diag. simpl.
      do 2 f_equal. unfold u64. rewrite Z.mod_0_l; lia.
    + destruct (u64_sub_pred tail pos Ht Hp) as [Hd Hd1]; [done|].
      rewrite (u64_small (count + 1)) by lia.
      rewrite IH.
      * rewrite (positions_cons pos tail) by done. simpl.
        rewrite (land_MASK config Hcfg), Hd.
        do 2 f_equal. lia.
      * apply u64_range.
      * done.
      * lia.
      * lia.
      * lia.
Qed.

(** C4.  [consume_batch] reads [head_] and [tail_] once, hands the handler
    the cell at [p mod CAPACITY] for each position [p] of the walk from
    the head read to the tail read, once each and in the order of the
    walk, stores the tail read into [head_], and returns the number of
    positions walked; the ring is then empty.  When [head_ <= tail_] the
    walk is [head_, head_ + 1, ..., tail_ - 1] and the count is
    [tail_ - head_]. *)
Theorem consume_batch_drains (h : H) (r : Ring.t T) (fuel : nat) :
  ring_wf config r → (Z.to_nat (Ring.len r) ≤ fuel)%nat →
  ∃ r',
    Ring.consume_batch config fuel process h r
    = Some (Ring.len r,
            foldl (λ h p, process h (Ring.buffer_ r) (p mod CAPACITY)) h
              (positions (Ring.head_ r) (Ring.tail_ r)),
            r')
    ∧ Ring.head_ r' = Ring.tail_ r
    ∧ Ring.tail_ r' = Ring.tail_ r
    ∧ Ring.buffer_ r' = Ring.buffer_ r
    ∧ Ring.is_empty r' = true
    ∧ (Ring.head_ r <= Ring.tail_ r →
       Ring.len r = Ring.tail_ r - Ring.head_ r
       ∧ positions (Ring.head_ r) (Ring.tail_ r)
         = seqZ (Ring.head_ r) (Ring.tail_ r - Ring.head_ r)).
Proof.
  intros (Ht & Hh & _) Hfuel. unfold Ring.len in *.
  assert (Ring.head_ r <= Ring.tail_ r →
          u64 (Ring.tail_ r - Ring.head_ r) = Ring.tail_ r - Ring.head_ r
          ∧ positions (Ring.head_ r) (Ring.tail_ r)
            = seqZ (Ring.head_ r) (Ring.tail_ r - Ring.head_ r)) as Hord.
  { intros Hle. split; [apply u64_small; lia|apply positions_ordered; lia]. }
  unfold Ring.consume_batch.
  destruct (Z.eqb_spec (u64 (Ring.tail_ r - Ring.head_ r)) 0) as [E0|E0].
  - apply u64_sub_0 in E0 as E; [|done..].
    exists r. rewrite E0, <- E, positions_nil. simpl.
    unfold Ring.is_empty. rewrite <- E, Z.eqb_refl. rewrite <- E in Hord.
    split_and!; try done. intros _. by rewrite Z.sub_diag.
  - pose proof (u64_range (Ring.tail_ r - Ring.head_ r)).
    rewrite consume_loop_run by (done || lia). simpl.
    eexists. split; [reflexivity|].
    unfold Ring.received_metrics, Ring.is_empty.
    destruct (enable_metrics config); simpl; rewrite Z.eqb_refl; done.
Qed.

End ConsumeFacts.

(** The witness of C4: test "ring: batch consumption" on 16 slots, with the
    summing handler. *)
Lemma consume_batch_drains_witness :
  let r := foldl (λ r v, (Ring.send cfg4 [v] r).2) (Ring.init (replicate 16 0))
             [0; 10; 20; 30; 40; 50; 60; 70; 80; 90] in
  ∃ r', Ring.consume_batch cfg4 10 sum_cells 0 r = Some (10, 450, r')
        ∧ Ring.is_empty r' = true.
Proof.
  intros r.
  destruct (consume_batch_drains cfg4 ltac:(by vm_compute) sum_cells 0 r 10)
    as (r' & Hrun & _ & _ & _ & Hempty & _).
  - unfold ring_wf. vm_compute. split_and!; done.
  - vm_compute. lia.
  - exists r'. split; [exact Hrun|exact Hempty].
Defined.

(** ** Ring: reserve_with_backoff *)

Section BackoffReserve.
Context (config : Config) {T : Type}.
Context (env : nat → Ring.t T → Ring.t T) (n : Z).

Lemma ring_after_shift (k : nat) (r : Ring.t T) (j : nat) :
  ring_after config env n (S k) (Ring.reserve config n (env k r)).2 j
  = ring_after config env n k r (S j).
Proof.
  induction j as [|j IH]; simpl.
  - by rewrite Nat.add_0_r.
  - rewrite IH. simpl. by rewrite Nat.add_succ_r.
Qed.

(** The loop from attempt [k] on, with a Backoff at step [step_ b]: it ends
    within [11 - step_ b] attempts, with the first reservation an attempt
    obtains, or with none when every attempt failed. *)
Lemma reserve_with_backoff_loop_run (fuel : nat) :
  ∀ k b r,
    0 <= Backoff.step_ b <= 11 →
    (Z.to_nat (11 - Backoff.step_ b) ≤ fuel)%nat →
    ∃ res r' m,
      Ring.reserve_with_backoff_loop config fuel env k b n r
      = Some (res, r', (k + m)%nat)
      ∧ Z.of_nat m <= 11 - Backoff.step_ b
      ∧ match res with
        | Some x =>
            ∃ m', m = S m'
              ∧ (∀ j, (j < m')%nat →
                   (Ring.reserve config n
                      (env (k + j)%nat (ring_after config env n k r j))).1 = None)
              ∧ Ring.reserve config n
                  (env (k + m')%nat (ring_after config env n k r m'))
                = (Some x, r')
        | None =>
            (∀ j, (j < m)%nat →
               (Ring.reserve config n
                  (env (k + j)%nat (ring_after config env n k r j))).1 = None)
            ∧ r' = ring_after config env n k r m
            ∧ (Z.of_nat m = 11 - Backoff.step_ b ∨ Ring.is_closed r' = true)
        end.
Proof.
  induction fuel as [|fuel IH]; intros k b r Hb Hfuel.
  - assert (Backoff.step_ b = 11) as Hs by lia.
    exists None, r, 0%nat. simpl.
    unfold Backoff.is_completed, Backoff.YIELD_LIMIT. rewrite Hs. simpl.
    rewrite Nat.add_0_r. split_and!; [done|lia|intros; lia|done|left; lia].
  - simpl. unfold Backoff.is_completed, Backoff.YIELD_LIMIT.
    destruct (Z.ltb_spec 10 (Backoff.step_ b)) as [Hs|Hs].
    { exists None, r, 0%nat. rewrite Nat.add_0_r.
      split_and!; [done|lia|intros; lia|done|left; lia]. }
    destruct (Ring.reserve config n (env k r)) as [[x|] r1] eqn:E.
    { exists (Some x), r1, 1%nat. rewrite Nat.add_1_r.
      split_and!; [done|lia|].
      exists 0%nat. simpl. rewrite Nat.add_0_r.
      split_and!; [done|intros; lia|done]. }
    destruct (Ring.is_closed r1) eqn:Ecl.
    { exists None, r1, 1%nat. rewrite Nat.add_1_r.
      split_and!; [done|lia| | |by right].
      - intros j Hj. assert (j = 0%nat) as -> by lia.
        simpl. by rewrite Nat.add_0_r, E.
      - simpl. by rewrite Nat.add_0_r, E. }
    assert (Backoff.step_ (Backoff.snooze b) = Backoff.step_ b + 1) as Hstep.
    { apply snooze_step. unfold Backoff.YIELD_LIMIT. lia. }
    destruct (IH (S k) (Backoff.snooze b) r1) as (res & r' & m & Hrun & Hm & Hres);
      [lia..|].
    assert (r1 = (Ring.reserve config n (env k r)).2) as Hr1 by by rewrite E.
    assert (∀ j,
              Ring.reserve config n
                (env (k + S j)%nat (ring_after config env n k r (S j)))
              = Ring.reserve config n
                  (env (S k + j)%nat (ring_after config env n (S k) r1 j)))
      as Hshift.
    { intros j. by rewrite <- ring_after_shift, <- Hr1, Nat.add_succ_r. }
    assert ((Ring.reserve config n
               (env (k + 0)%nat (ring_after config env n k r 0))).1 = None)
      as Hfirst.
    { simpl. by rewrite Nat.add_0_r, E. }
    exists res, r', (S m). rewrite Nat.add_succ_r, Hrun, Hstep in *.
    split_and!; [done|lia|].
    destruct res as [x|].
    + destruct Hres as (m' & -> & Hall & Hlast).
      exists (S m'). split_and!; [done| |].
      * intros [|j] Hj; [done|]. rewrite Hshift. apply Hall. lia.
      * by rewrite Hshift.
    + destruct Hres as (Hall & -> & Hend).
      split_and!.
      * intros [|j] Hj; [done|]. rewrite Hshift. apply Hall. lia.
      * by rewrite Hr1, ring_after_shift.
      * destruct Hend as [Hend|Hend]; [left; lia|by right].
Qed.

End BackoffReserve.

(** C8.  With fuel for 11 iterations [reserve_with_backoff] returns, after
    at most [YIELD_LIMIT + 1 = 11] calls of [reserve]: either the
    reservation of the first attempt that succeeds, every attempt before it
    having failed, or none, every attempt made having failed and either 11
    attempts made or the ring seen closed.  When [reserve] fails at every
    attempt the result is none. *)
Theorem reserve_with_backoff_bounded (config : Config) {T : Type}
    (env : nat → Ring.t T → Ring.t T) (n : Z) (r : Ring.t T) (fuel : nat) :
  (11 ≤ fuel)%nat →
  ∃ res r' m,
    Ring.reserve_with_backoff config fuel env n r = Some (res, r', m)
    ∧ Z.of_nat m <= Backoff.YIELD_LIMIT + 1
    ∧ match res with
      | Some x =>
          ∃ m', m = S m'
            ∧ (∀ j, (j < m')%nat → (attempt config env n r j).1 = None)
            ∧ attempt config env n r m' = (Some x, r')
      | None =>
          (∀ j, (j < m)%nat → (attempt config env n r j).1 = None)
          ∧ (m = 11%nat ∨ Ring.is_closed r' = true)
      end
    ∧ ((∀ j, (j < 11)%nat → (attempt config env n r j).1 = None) → res = None).
Proof.
  intros Hfuel. unfold Ring.reserve_with_backoff, attempt.
  destruct (reserve_with_backoff_loop_run config env n fuel 0 Backoff.fresh r)
    as (res & r' & m & Hrun & Hm & Hres); [done|simpl; lia|].
  simpl in Hrun, Hm, Hres.
  exists res, r', m. unfold Backoff.YIELD_LIMIT.
  split_and!; [done|lia| |].
  - destruct res as [x|]; [done|].
    destruct Hres as (Hall & _ & Hend).
    split; [done|]. destruct Hend as [Hend|Hend]; [left; lia|by right].
  - intros Hall. destruct res as [x|]; [|done].
    destruct Hres as (m' & -> & _ & Hlast).
    pose proof (f_equal fst Hlast) as Hl. simpl in Hl.
    rewrite Hall in Hl by lia. done.
Qed.

(** The witness of C8: the full 16-slot ring with no consumer. *)
Lemma reserve_with_backoff_bounded_witness :
  (11 ≤ 11)%nat
  ∧ ∃ res r' m,
      Ring.reserve_with_backoff cfg4 11 (λ _ r, r) 1 full_ring4 = Some (res, r', m)
      ∧ Z.of_nat m <= Backoff.YIELD_LIMIT + 1.
Proof.
  split; [lia|].
  destruct (reserve_with_backoff_bounded cfg4 (λ _ r, r) 1 full_ring4 11)
    as (res & r' & m & Hrun & Hm & _); [lia|].
  exists res, r', m. split; [exact Hrun|exact Hm].
Defined.

(** Scenario S3: on the full ring [reserve 1] fails and
    [reserve_with_backoff 1] gives up after its 11 attempts. *)
Example full_ring_backoff :
  (Ring.reserve cfg4 1 full_ring4).1 = None
  ∧ ∃ r', Ring.reserve_with_backoff cfg4 11 (λ _ r, r) 1 full_ring4
          = Some (None, r', 11%nat).
Proof. split; [reflexivity|]. eexists. vm_compute. reflexivity. Qed.

(** ** Channel: registration *)

Section RegisterFacts.
Context (config : Config) (Hcfg : config_ok config) {T : Type}.
Implicit Types (c : Channel.t T).

Lemma register_closed c :
  Channel.closed_ c = true →
  Channel.register_producer config c = (inl Channel.Closed, c).
Proof. intros Hc. unfold Channel.register_producer. by rewrite Hc. Qed.

Lemma register_full c :
  Channel.closed_ c = false →
  0 <= Channel.producer_count_ c < 2 ^ 64 →
  max_producers config <= Channel.producer_count_ c →
  Channel.register_producer config c = (inl Channel.TooManyProducers, c).
Proof.
  intros Hc Hr Hmax. unfold Channel.register_producer. rewrite Hc.
  destruct (Z.leb_spec (max_producers config) (Channel.producer_count_ c)); [|lia].
  f_equal. destruct c as [rings count closed]. simpl in *.
  unfold Channel.set_producer_count. simpl. f_equal.
  unfold u64. rewrite Zminus_mod_idemp_l.
  replace (count + 1 - 1) with count by lia. by apply Z.mod_small.
Qed.

Lemma register_free c :
  Channel.closed_ c = false →
  0 <= Channel.producer_count_ c < max_producers config →
  Channel.register_producer config c
  = (inr (Channel.mkProducer (Channel.producer_count_ c) (Channel.producer_count_ c)),
     Channel.mk
       (alter Ring.mark_active (Z.to_nat (Channel.producer_count_ c))
          (Channel.rings_ c))
       (Channel.producer_count_ c + 1) false).
Proof.
  intros Hc Hr. destruct Hcfg as [_ Hmax].
  unfold Channel.register_producer. rewrite Hc.
  destruct (Z.leb_spec (max_producers config) (Channel.producer_count_ c)); [lia|].
  f_equal. unfold Channel.set_rings, Channel.set_producer_count. simpl.
  rewrite Hc, u64_small by lia. done.
Qed.

Lemma close_loop_length (todo : nat) :
  ∀ i (rings : list (Ring.t T)),
    length (Channel.close_loop todo i rings) = length rings.
Proof.
  induction todo as [|todo IH]; intros i rings; simpl; [done|].
  by rewrite IH, length_alter.
Qed.

Lemma close_wf c : channel_wf config c → channel_wf config (Channel.close c).
Proof.
  intros [Hlen Hcount]. unfold channel_wf, Channel.close. simpl.
  by rewrite close_loop_length.
Qed.

Lemma register_wf c :
  channel_wf config c →
  channel_wf config (Channel.register_producer config c).2.
Proof.
  intros [Hlen Hcount]. destruct Hcfg as [_ Hmax].
  destruct (Channel.closed_ c) eqn:Hc.
  { by rewrite register_closed. }
  destruct (Z.le_gt_cases (max_producers config) (Channel.producer_count_ c)).
  { rewrite register_full by (done || lia). done. }
  rewrite register_free by (done || lia).
  unfold channel_wf. simpl. rewrite length_alter. split; [done|lia].
Qed.

(** The results of a run are those §4.3 describes. *)
Lemma run_results (calls : list Channel.call) :
  ∀ c, channel_wf config c →
    (Channel.run config calls c).1
    = register_results (max_producers config) (Channel.closed_ c)
        (Channel.producer_count_ c) calls
    ∧ channel_wf config (Channel.run config calls c).2.
Proof.
  destruct Hcfg as [_ Hmax].
  induction calls as [|[|] calls IH]; intros c Hwf; simpl; [done| |].
  - pose proof (register_wf c Hwf) as Hwf'. destruct Hwf as [Hlen Hcount].
    destruct (Channel.closed_ c) eqn:Hc.
    { rewrite register_closed in * by done.
      destruct (IH c Hwf') as [IH1 IH2].
      destruct (Channel.run config calls c) as [rest c']. simpl in *.
      by rewrite IH1, Hc. }
    destruct (Z.leb_spec (max_producers config) (Channel.producer_count_ c)).
    { rewrite register_full in * by (done || lia).
      destruct (IH c Hwf') as [IH1 IH2].
      destruct (Channel.run config calls c) as [rest c']. simpl in *.
      by rewrite IH1, Hc. }
    rewrite register_free in * by (done || lia). simpl in Hwf'.
    destruct (IH _ Hwf') as [IH1 IH2].
    destruct (Channel.run config calls _) as [rest c']. simpl in *.
    by rewrite IH1.
  - destruct (IH _ (close_wf c Hwf)) as [IH1 IH2]. done.
Qed.

(** Handles come out with consecutive ids, from the count of producers
    registered before the run. *)
Lemma register_results_ids (maxp : Z) (calls : list Channel.call) :
  ∀ closed count,
    ∃ k : nat, handle_ids (register_results maxp closed count calls)
               = seqZ count (Z.of_nat k).
Proof.
  induction calls as [|[|] calls IH]; intros closed count; simpl.
  - by exists 0%nat.
  - destruct closed; simpl.
    { apply IH. }
    destruct (Z.leb_spec maxp count); simpl.
    { apply IH. }
    destruct (IH false (count + 1)) as [k Hk].
    exists (S k). unfold handle_ids in *. simpl. rewrite Hk.
    rewrite (seqZ_cons count) by lia. f_equal. f_equal; lia.
  - apply IH.
Qed.

(** A handle a run returned points to a ring of the channel at the end of
    the run. *)
Lemma register_results_bound (maxp : Z) (calls : list Channel.call) :
  ∀ closed count p,
    0 <= count →
    inr p ∈ register_results maxp closed count calls →
    Channel.ring p = Channel.id p ∧ 0 <= Channel.id p < maxp.
Proof.
  induction calls as [|[|] calls IH]; intros closed count p Hc; simpl.
  - by intros ?%elem_of_nil.
  - destruct closed.
    { intros [?|Hin]%elem_of_cons; [done|]. by apply IH in Hin. }
    destruct (Z.leb_spec maxp count).
    { intros [?|Hin]%elem_of_cons; [done|]. by apply IH in Hin. }
    intros [[= ->]|Hin]%elem_of_cons; simpl; [lia|].
    apply IH in Hin; [done|lia].
  - apply IH. done.
Qed.

(** C5.  On a channel: a [register_producer] call on a closed channel
    returns [Closed]; on an open channel that has registered
    [max_producers] producers it returns [TooManyProducers] and leaves the
    channel, [producer_count_] included, as it was; any other call returns
    a handle bound to ring [id] with [id] the count before the call, marks
    that ring active, leaves every other ring alone and adds one to the
    count.  Over any run of registrations and closes the results are those
    of §4.3, the ids handed out are consecutive from the starting count
    (from 0 on a fresh channel), and every handle handed out still points
    to a ring of the channel at the end of the run. *)
Theorem register_producer_results c :
  channel_wf config c →
  (Channel.closed_ c = true →
   Channel.register_producer config c = (inl Channel.Closed, c))
  ∧ (Channel.closed_ c = false →
     Channel.producer_count_ c = max_producers config →
     Channel.register_producer config c = (inl Channel.TooManyProducers, c))
  ∧ (Channel.closed_ c = false →
     Channel.producer_count_ c < max_producers config →
     ∃ c',
       Channel.register_producer config c
       = (inr (Channel.mkProducer (Channel.producer_count_ c)
                 (Channel.producer_count_ c)), c')
       ∧ Channel.producer_count_ c' = Channel.producer_count_ c + 1
       ∧ Channel.rings_ c' !! Z.to_nat (Channel.producer_count_ c)
         = Ring.mark_active <$> Channel.rings_ c !! Z.to_nat (Channel.producer_count_ c)
       ∧ is_Some (Channel.rings_ c' !! Z.to_nat (Channel.producer_count_ c))
       ∧ (∀ j, j ≠ Z.to_nat (Channel.producer_count_ c) →
            Channel.rings_ c' !! j = Channel.rings_ c !! j))
  ∧ (∀ calls,
       let '(results, c') := Channel.run config calls c in
       results
       = register_results (max_producers config) (Channel.closed_ c)
           (Channel.producer_count_ c) calls
       ∧ (∃ k : nat, handle_ids results
                     = seqZ (Channel.producer_count_ c) (Z.of_nat k))
       ∧ (∀ p, inr p ∈ results →
            is_Some (Channel.rings_ c' !! Z.to_nat (Channel.ring p)))).
Proof.
  intros Hwf. pose proof Hwf as [Hlen Hcount]. destruct Hcfg as [_ Hmax].
  split_and!.
  - apply register_closed.
  - intros Hc Hfull. apply register_full; [done|lia..].
  - intros Hc Hfree. eexists. split; [apply register_free; [done|lia]|].
    simpl. split_and!; [done| | |].
    + apply list_lookup_alter_eq.
    + rewrite list_lookup_alter_eq. apply fmap_is_Some, lookup_lt_is_Some. lia.
    + intros j Hj. by apply list_lookup_alter_ne.
  - intros calls. destruct (run_results calls c Hwf) as [Hres [Hlen' _]].
    destruct (Channel.run config calls c) as [results c']. simpl in *.
    split_and!; [done| |].
    + rewrite Hres. apply register_results_ids.
    + intros p Hp. rewrite Hres in Hp.
      apply register_results_bound in Hp as [-> Hid]; [|lia].
      apply lookup_lt_is_Some. lia.
Qed.

End RegisterFacts.

Lemma init_wf (config : Config) {T} (zero : T) :
  config_ok config → channel_wf config (Channel.init config zero).
Proof.
  intros [_ Hmax]. unfold channel_wf, Channel.init. simpl.
  rewrite length_replicate. split; [done|lia].
Qed.

(** The witness of C5: a fresh channel of two rings, with the run
    register, register, register, close, register. *)
Lemma register_producer_results_witness :
  channel_wf cfg4 (Channel.init cfg4 0)
  ∧ (Channel.run cfg4
       [Channel.Register; Channel.Register; Channel.Register; Channel.Close;
        Channel.Register] (Channel.init cfg4 0)).1
    = [inr (Channel.mkProducer 0 0); inr (Channel.mkProducer 1 1);
       inl Channel.TooManyProducers; inl Channel.Closed].
Proof.
  assert (config_ok cfg4) as Hcfg by by vm_compute.
  split; [by apply init_wf|].
  pose proof (register_producer_results cfg4 Hcfg (Channel.init cfg4 0)
                (init_wf cfg4 0 Hcfg)) as (_ & _ & _ & Hrun).
  specialize (Hrun [Channel.Register; Channel.Register; Channel.Register;
                    Channel.Close; Channel.Register]).
  destruct (Channel.run cfg4 _ _) as [results c'].
  destruct Hrun as [-> _]. reflexivity.
Defined.

(** ** Ring: readable and recv *)

Section ReadFacts.
Context (config : Config) (Hcfg : config_ok config) {T : Type}.
Implicit Types (r : Ring.t T).

Local Abbreviation CAPACITY := (Ring.CAPACITY config).

Lemma readable_cases r res r' :
  Ring.readable config r = (res, r') →
  (r' = r ∨ r' = Ring.set_cached_tail (Ring.tail_ r) r)
  ∧ (res = None → Ring.cached_tail_ r' = Ring.tail_ r
                  ∧ u64 (Ring.tail_ r - Ring.head_ r) = 0)
  ∧ ∀ s, res = Some s →
      u64 (Ring.cached_tail_ r' - Ring.head_ r) ≠ 0
      ∧ s = mkSpan (Ring.head_ r mod CAPACITY)
              (Z.min (u64 (Ring.cached_tail_ r' - Ring.head_ r))
                     (CAPACITY - Ring.head_ r mod CAPACITY)).
Proof.
  unfold Ring.readable, Ring.readable_span. rewrite (land_MASK config Hcfg).
  destruct (Z.eqb_spec (u64 (Ring.cached_tail_ r - Ring.head_ r)) 0) as [E|E].
  - simpl.
    destruct (Z.eqb_spec (u64 (Ring.tail_ r - Ring.head_ r)) 0) as [E'|E'].
    + intros [= <- <-]. split_and!; [by right|done|done].
    + intros [= <- <-]. split_and!; [by right|done|]. by intros s [= <-].
  - intros [= <- <-]. split_and!; [by left|done|]. by intros s [= <-].
Qed.

Lemma readable_size r s r' :
  Ring.readable config r = (Some s, r') →
  1 <= size s <= CAPACITY ∧ 0 <= data s ∧ data s + size s <= CAPACITY.
Proof.
  intros (_ & _ & Hs)%readable_cases. destruct (Hs s eq_refl) as [Hne ->].
  simpl. pose proof (u64_range (Ring.cached_tail_ r' - Ring.head_ r)).
  pose proof (index_range config Hcfg (Ring.head_ r)). lia.
Qed.

Lemma copy_to_front (k out : list T) (n : nat) :
  (length k ≤ n)%nat → drop n (copy_to k 0 out) = drop n out.
Proof.
  intros Hk. unfold copy_to. apply list_eq. intros i.
  rewrite !lookup_drop. apply list_lookup_inserts_ge. simpl. lia.
Qed.

Lemma copy_to_take (k out : list T) :
  (length k ≤ length out)%nat → take (length k) (copy_to k 0 out) = k.
Proof.
  intros Hk. unfold copy_to. simpl.
  rewrite <- (take_drop (length k) out) at 1.
  rewrite list_inserts_0_r by (rewrite length_take; lia).
  by rewrite take_app_length.
Qed.

(** [recv] writes the front of [out] only, as many cells as it returns. *)
Lemma recv_frame (out : list T) r :
  let '(n, out', r') := Ring.recv config out r in
  0 <= n <= Z.of_nat (length out)
  ∧ length out' = length out
  ∧ drop (Z.to_nat n) out' = drop (Z.to_nat n) out.
Proof.
  unfold Ring.recv.
  destruct (Ring.readable config r) as [[s|] r1] eqn:E.
  - apply readable_size in E. split_and!; [lia..| |].
    + unfold copy_to. by rewrite length_inserts.
    + apply copy_to_front. rewrite length_take. lia.
  - split_and!; [lia..|done|done].
Qed.

End ReadFacts.

(** ** Channel: recv *)

Section ChannelRecv.
Context (config : Config) (Hcfg : config_ok config) {T : Type}.
Context (rings0 : list (Ring.t T)) (out0 : list T).
Context (Hout : Z.of_nat (length out0) < 2 ^ 64).

Lemma recv_loop_trace (todo : nat) :
  ∀ i total out rings acc,
    0 <= i → 0 <= total <= Z.of_nat (length out0) →
    length out = length out0 →
    drop (Z.to_nat total) out = drop (Z.to_nat total) out0 →
    (∀ j, (Z.to_nat i ≤ j)%nat → rings !! j = rings0 !! j) →
    (Z.to_nat i + todo ≤ length rings0)%nat →
    ∃ vs out' rings',
      Channel.recv_loop config todo i total out rings acc
      = (total + received_total vs, out', rings', acc ++ vs)
      ∧ visits_from config rings0 out0 i total vs
      ∧ (length vs ≤ todo)%nat
      ∧ ((length vs < todo)%nat →
         total + received_total vs = Z.of_nat (length out0))
      ∧ total + received_total vs <= Z.of_nat (length out0)
      ∧ 0 <= received_total vs
      ∧ length out' = length out0
      ∧ out' = take (Z.to_nat total) out
               ++ (vs ≫= visit_items config rings0 out0)
               ++ drop (Z.to_nat (total + received_total vs)) out0
      ∧ (∀ j, (j < Z.to_nat i)%nat → rings' !! j = rings !! j)
      ∧ (∀ k, rings' !! (Z.to_nat i + k)%nat
              = match vs !! k with
                | Some v => visit_ring config rings0 out0 v
                | None => rings0 !! (Z.to_nat i + k)%nat
                end).
Proof.
  induction todo as [|todo IH];
    intros i total out rings acc Hi Htot Hlen Hdrop Hrings Htodo.
  { exists [], out, rings. simpl. rewrite Z.add_0_r, app_nil_r.
    split_and!; [done|done|done|lia|lia|done|done| |done|].
    - by rewrite <- Hdrop, take_drop.
    - intros k. apply Hrings. lia. }
  simpl. rewrite Hlen.
  destruct (Z.ltb_spec total (Z.of_nat (length out0))) as [Hroom|Hfull]; cycle 1.
  { exists [], out, rings. simpl. rewrite Z.add_0_r, app_nil_r.
    split_and!; [done|done|lia|lia|lia|done|done| |done|].
    - by rewrite <- Hdrop, take_drop.
    - intros k. apply Hrings. lia. }
  rewrite Hrings by lia.
  destruct (lookup_lt_is_Some_2 rings0 (Z.to_nat i)) as [r Hr]; [lia|].
  rewrite Hr.
  pose proof (recv_frame config Hcfg (drop (Z.to_nat total) out) r) as Hframe.
  destruct (Ring.recv config (drop (Z.to_nat total) out) r) as [[n sub] r'] eqn:E.
  rewrite length_drop in Hframe. destruct Hframe as (Hn & Hsub & Hrest).
  rewrite u64_small by lia.
  destruct (IH (i + 1) (total + n) (take (Z.to_nat total) out ++ sub)
              (<[Z.to_nat i := r']> rings) (acc ++ [Channel.mkVisit i total n]))
    as (vs & out' & rings' & Hrun & Hvs & Hlenvs & Hstop & Hle & Hpos & Hlen'
        & Hout' & Hbelow & Hfrom);
    [lia|lia| | | |lia|].
  - rewrite length_app, length_take, Hsub. lia.
  - rewrite drop_app_ge by (rewrite length_take; lia).
    rewrite length_take.
    replace (Z.to_nat (total + n) - Z.to_nat total `min` length out)%nat
      with (Z.to_nat n) by lia.
    rewrite Hrest, Hdrop, drop_drop. f_equal. lia.
  - intros j Hj. rewrite list_lookup_insert_ne by lia. apply Hrings. lia.
  - assert (visit_recv config rings0 out0 (Channel.mkVisit i total n)
            = Some (n, sub, r')) as Hvisit.
    { unfold visit_recv. cbn [Channel.v_ring Channel.v_total].
      rewrite Hr. cbn [fmap option_fmap option_map]. by rewrite <- Hdrop, E. }
    assert (rings !! Z.to_nat i = Some r) as Hri.
    { rewrite Hrings by lia. done. }
    exists (Channel.mkVisit i total n :: vs), out', rings'. simpl.
    rewrite Hrun, <- app_assoc. simpl.
    assert (total + (n + received_total vs) = total + n + received_total vs)
      as -> by lia.
    split_and!;
      [done..|by exists r; rewrite <- Hdrop, E|done|lia|lia|lia|lia|done| | |].
    + rewrite Hout'. unfold visit_items at 2. rewrite Hvisit.
      rewrite take_app_ge by (rewrite length_take; lia).
      rewrite length_take.
      replace (Z.to_nat (total + n) - Z.to_nat total `min` length out)%nat
        with (Z.to_nat n) by lia.
      by rewrite <- !app_assoc.
    + intros j Hj. rewrite Hbelow by lia.
      apply list_lookup_insert_ne. lia.
    + intros [|k].
      * rewrite Nat.add_0_r, Hbelow by lia.
        rewrite list_lookup_insert_eq by (by apply lookup_lt_Some in Hri).
        cbn [lookup list_lookup]. unfold visit_ring. by rewrite Hvisit.
      * replace (Z.to_nat i + S k)%nat with (Z.to_nat (i + 1) + k)%nat by lia.
        cbn [lookup list_lookup]. apply Hfrom.
Qed.

End ChannelRecv.

(** ** Ring: the fields after commit and advance, and the paths of reserve
    and readable *)

Section RingPaths.
Context (config : Config) (Hcfg : config_ok config) {T : Type}.
Implicit Types (r : Ring.t T) (n : Z).

Local Abbreviation CAPACITY := (Ring.CAPACITY config).

Lemma commit_fields n r :
  Ring.tail_ (Ring.commit config n r) = u64 (Ring.tail_ r + u64 n)
  ∧ Ring.head_ (Ring.commit config n r) = Ring.head_ r
  ∧ Ring.cached_head_ (Ring.commit config n r) = Ring.cached_head_ r
  ∧ Ring.cached_tail_ (Ring.commit config n r) = Ring.cached_tail_ r
  ∧ Ring.closed_ (Ring.commit config n r) = Ring.closed_ r
  ∧ Ring.buffer_ (Ring.commit config n r) = Ring.buffer_ r.
Proof. unfold Ring.commit. by destruct (enable_metrics config). Qed.

Lemma advance_fields n r :
  Ring.head_ (Ring.advance config n r) = u64 (Ring.head_ r + u64 n)
  ∧ Ring.tail_ (Ring.advance config n r) = Ring.tail_ r
  ∧ Ring.cached_head_ (Ring.advance config n r) = Ring.cached_head_ r
  ∧ Ring.cached_tail_ (Ring.advance config n r) = Ring.cached_tail_ r
  ∧ Ring.closed_ (Ring.advance config n r) = Ring.closed_ r
  ∧ Ring.buffer_ (Ring.advance config n r) = Ring.buffer_ r.
Proof.
  unfold Ring.advance, Ring.received_metrics.
  by destruct (enable_metrics config).
Qed.

(** The fast path: the cached head shows room for [n] slots. *)
Lemma reserve_fast n r :
  1 <= n <= CAPACITY →
  0 <= Ring.tail_ r - Ring.cached_head_ r →
  n <= CAPACITY - (Ring.tail_ r - Ring.cached_head_ r) →
  Ring.reserve config n r
  = (Some (mkReservation
             (mkSpan (Ring.tail_ r mod CAPACITY)
                     (Z.min n (CAPACITY - Ring.tail_ r mod CAPACITY)))
             (Ring.tail_ r)), r).
Proof.
  intros Hn Hused Hroom. pose proof (CAPACITY_bounds config Hcfg) as Hcap.
  unfold Ring.reserve, Ring.make_reservation.
  destruct (Z.eqb_spec n 0); [lia|].
  destruct (Z.ltb_spec CAPACITY n); [lia|]. simpl.
  rewrite (u64_small (Ring.tail_ r - Ring.cached_head_ r)) by lia.
  rewrite u64_small by lia.
  destruct (Z.leb_spec n (CAPACITY - (Ring.tail_ r - Ring.cached_head_ r))); [|lia].
  by rewrite (land_MASK config Hcfg).
Qed.

(** [readable] with a cached tail that shows nothing, on a ring that holds
    something. *)
Lemma readable_refresh r :
  u64 (Ring.cached_tail_ r - Ring.head_ r) = 0 →
  u64 (Ring.tail_ r - Ring.head_ r) ≠ 0 →
  Ring.readable config r
  = (Some (mkSpan (Ring.head_ r mod CAPACITY)
             (Z.min (u64 (Ring.tail_ r - Ring.head_ r))
                    (CAPACITY - Ring.head_ r mod CAPACITY))),
     Ring.set_cached_tail (Ring.tail_ r) r).
Proof.
  intros Hc Ht. unfold Ring.readable, Ring.readable_span.
  rewrite Hc. simpl.
  destruct (Z.eqb_spec (u64 (Ring.tail_ r - Ring.head_ r)) 0); [done|].
  by rewrite (land_MASK config Hcfg).
Qed.

End RingPaths.

(** ** Scenario S4, for every configuration with at least two slots per
    ring and two rings *)

Section TwoProducers.
Context (config : Config) (Hcfg : config_ok config).
Context (Hbits : 1 <= ring_bits config) (Hmax : 2 <= max_producers config).

Local Abbreviation CAPACITY := (Ring.CAPACITY config).

Lemma CAPACITY_two : ∃ k : nat, Z.to_nat CAPACITY = S (S k).
Proof.
  assert (2 <= CAPACITY) as Hc.
  { rewrite (CAPACITY_pow config Hcfg).
    change 2 with (2 ^ 1) at 1. apply Z.pow_le_mono_r; lia. }
  exists (Z.to_nat CAPACITY - 2)%nat. lia.
Qed.

(** A ring at its origin takes a two-item [send] whole, and the [recv]
    that follows hands the two items over. *)
Lemma send_recv_pair (a b : Z) (out : list Z) (r : Ring.t Z) :
  Ring.tail_ r = 0 → Ring.cached_head_ r = 0 → Ring.head_ r = 0 →
  Ring.cached_tail_ r = 0 →
  Ring.buffer_ r = replicate (Z.to_nat CAPACITY) 0 →
  (2 ≤ length out)%nat →
  (Ring.send config [a; b] r).1 = 2
  ∧ (Ring.recv config out (Ring.send config [a; b] r).2).1
    = (2, a :: b :: drop 2 out).
Proof.
  intros Ht Hch Hh Hct Hbuf Hout.
  pose proof (CAPACITY_bounds config Hcfg) as Hcap.
  destruct CAPACITY_two as [k Hk].
  assert (0 mod CAPACITY = 0) as Hidx by (apply Z.mod_0_l; lia).
  unfold Ring.send. simpl length. change (Z.of_nat 2) with 2.
  rewrite (reserve_fast config Hcfg) by (rewrite ?Ht, ?Hch; lia).
  rewrite Ht, Hidx, Z.sub_0_r, Z.min_l by lia. simpl.
  split; [done|].
  set (r1 := Ring.commit config 2 (Ring.set_buffer _ r)).
  destruct (commit_fields config 2
              (Ring.set_buffer (copy_to [a; b] 0 (Ring.buffer_ r)) r))
    as (Ht1 & Hh1 & _ & Hct1 & _ & Hbuf1).
  fold r1 in Ht1, Hh1, Hct1, Hbuf1. simpl in Ht1, Hh1, Hct1, Hbuf1.
  rewrite Ht in Ht1. rewrite Hh in Hh1. rewrite Hct in Hct1.
  rewrite Hbuf, Hk in Hbuf1.
  change (u64 (0 + u64 2)) with 2 in Ht1.
  unfold Ring.recv.
  rewrite (readable_refresh config Hcfg)
    by (rewrite ?Ht1, ?Hh1, ?Hct1; by vm_compute).
  rewrite Ht1, Hh1, Hidx, !Z.sub_0_r.
  change (u64 2) with 2. rewrite (Z.min_l 2 CAPACITY) by lia.
  cbn [size data fst]. unfold span_read. cbn [size data Ring.buffer_ Ring.set_cached_tail].
  rewrite Hbuf1.
  destruct out as [|o1 [|o2 out]]; simpl in Hout; try lia.
  rewrite Z.min_l by (simpl length; lia). reflexivity.
Qed.

Lemma two_producers_rings :
  ∃ r0 r1 rest,
    two_producers config = Channel.mk (r0 :: r1 :: rest) 2 false
    ∧ (∀ out, (2 ≤ length out)%nat →
         (Ring.recv config out r0).1 = (2, 10 :: 11 :: drop 2 out))
    ∧ (∀ out, (2 ≤ length out)%nat →
         (Ring.recv config out r1).1 = (2, 20 :: 21 :: drop 2 out)).
Proof.
  destruct Hcfg as [_ Hmaxp].
  assert (∃ m : nat, Z.to_nat (max_producers config) = S (S m)) as [m Hm].
  { exists (Z.to_nat (max_producers config) - 2)%nat. lia. }
  set (fresh := Ring.mark_active
                  (Ring.init (replicate (Z.to_nat CAPACITY) 0))).
  exists (Ring.send config [10; 11] fresh).2,
         (Ring.send config [20; 21] fresh).2, (replicate m (Ring.init (replicate (Z.to_nat CAPACITY) 0))).
  split_and!.
  - unfold two_producers.
    rewrite (register_free config Hcfg (Channel.init config 0))
      by (simpl; (done || lia)).
    simpl. rewrite (register_free config Hcfg) by (simpl; (done || lia)).
    simpl. rewrite Hm. simpl.
    unfold Channel.producer_send. simpl.
    fold fresh.
    destruct (Ring.send config [10; 11] fresh) as [n0 r0]. simpl.
    destruct (Ring.send config [20; 21] fresh) as [n1 r1]. simpl.
    reflexivity.
  - intros out Hlen. by apply send_recv_pair.
  - intros out Hlen. by apply send_recv_pair.
Qed.

(** Scenario S4: ring 0 hands over its two items, then ring 1 its two. *)
Lemma two_producers_recv :
  ∃ c',
    Channel.recv_traced config (replicate 10 0) (two_producers config)
    = (4, [10; 11; 20; 21; 0; 0; 0; 0; 0; 0], c',
       [Channel.mkVisit 0 0 2; Channel.mkVisit 1 2 2]).
Proof.
  destruct two_producers_rings as (r0 & r1 & rest & -> & H0 & H1).
  unfold Channel.recv_traced. simpl.
  pose proof (H0 (replicate 10 0) ltac:(simpl; lia)) as E0.
  destruct (Ring.recv config _ r0) as [[n0 sub0] r0'].
  simpl in E0. injection E0 as -> ->. simpl.
  pose proof (H1 (replicate 8 0) ltac:(simpl; lia)) as E1.
  destruct (Ring.recv config _ r1) as [[n1 sub1] r1'].
  simpl in E1. injection E1 as -> ->. simpl.
  eexists. reflexivity.
Qed.

End TwoProducers.

(** ** Channel: close *)

Section CloseFacts.
Context (config : Config) {T : Type}.

Lemma close_loop_idempotent (todo : nat) :
  ∀ i (rings : list (Ring.t T)),
    Channel.close_loop todo i (Channel.close_loop todo i rings)
    = Channel.close_loop todo i rings.
Proof.
  assert (∀ j (rings : list (Ring.t T)),
            alter Ring.close j (alter Ring.close j rings)
            = alter Ring.close j rings) as Halter.
  { intros j rings. rewrite list_alter_alter_eq. by apply list_alter_ext. }
  assert (∀ todo i (j : nat) (rings : list (Ring.t T)),
            Channel.close_loop todo i (alter Ring.close j rings)
            = alter Ring.close j (Channel.close_loop todo i rings))
    as Hcomm.
  { clear todo. intros todo. induction todo as [|todo IH]; intros i j rings; simpl.
    - done.
    - rewrite <- IH. f_equal.
      destruct (decide (Z.to_nat i = j)) as [<-|E]; [done|].
      by apply list_alter_alter_ne. }
  induction todo as [|todo IH]; intros i rings; simpl; [done|].
  by rewrite <- Hcomm, IH, Halter.
Qed.

(** [close] called twice leaves the channel as [close] called once does. *)
Lemma close_idempotent (c : Channel.t T) :
  Channel.close (Channel.close c) = Channel.close c.
Proof.
  unfold Channel.close, Channel.set_rings, Channel.set_closed. simpl.
  by rewrite close_loop_idempotent.
Qed.

End CloseFacts.

(** Scenario S5: two producers send [1, 2, 3] and [4, 5, 6]; [consume_all]
    with the summing handler returns 6 and the sum is 21. *)
Example consume_all_sums :
  let c := Channel.init cfg4 0 in
  let c := (Channel.register_producer cfg4 c).2 in
  let c := (Channel.register_producer cfg4 c).2 in
  let c := (Channel.producer_send cfg4 (Channel.mkProducer 0 0) [1; 2; 3] c).2 in
  let c := (Channel.producer_send cfg4 (Channel.mkProducer 1 1) [4; 5; 6] c).2 in
  ∃ c', Channel.consume_all cfg4 3 sum_cells 0 c = Some (6, 21, c').
Proof. eexists. vm_compute. reflexivity. Qed.

(** ** Channel: the sweep of recv *)

Section ChannelSweep.
Context (config : Config) (Hcfg : config_ok config) {T : Type}.

Lemma recv_traced_trace (c : Channel.t T) (out : list T) :
  channel_wf config c → Z.of_nat (length out) < 2 ^ 64 →
  ∃ out' c' visits,
    Channel.recv_traced config out c
    = (received_total visits, out', c', visits)
    ∧ visits_from config (Channel.rings_ c) out 0 0 visits
    ∧ Z.of_nat (length visits) <= Channel.producer_count_ c
    ∧ (Z.of_nat (length visits) < Channel.producer_count_ c →
       received_total visits = Z.of_nat (length out))
    ∧ 0 <= received_total visits <= Z.of_nat (length out)
    ∧ length out' = length out
    ∧ out' = (visits ≫= visit_items config (Channel.rings_ c) out)
             ++ drop (Z.to_nat (received_total visits)) out
    ∧ (∀ j, Channel.rings_ c' !! j
            = match visits !! j with
              | Some v => visit_ring config (Channel.rings_ c) out v
              | None => Channel.rings_ c !! j
              end)
    ∧ Channel.producer_count_ c' = Channel.producer_count_ c
    ∧ Channel.closed_ c' = Channel.closed_ c.
Proof.
  intros [Hlen Hcount] Hout. unfold Channel.recv_traced.
  destruct (recv_loop_trace config Hcfg (Channel.rings_ c) out Hout
              (Z.to_nat (Channel.producer_count_ c)) 0 0 out (Channel.rings_ c) [])
    as (vs & out' & rings' & Hrun & Hvs & Hlenvs & Hstop & Hle & Hpos & Hlen'
        & Hout' & _ & Hfrom);
    [lia|lia|done|done|done|lia|].
  rewrite Hrun. simpl in *.
  exists out', (Channel.set_rings rings' c), vs.
  split_and!; [done|done|lia|lia|lia|lia|done|done|done|done|done].
Qed.

(** Along a trace each visit starts where the one before it ended, and
    the last one ends at the total. *)
Lemma visits_from_chain (rings : list (Ring.t T)) (out : list T)
    (vs : list Channel.Visit) :
  ∀ i total j v,
    visits_from config rings out i total vs →
    vs !! j = Some v →
    Channel.v_ring v = i + Z.of_nat j
    ∧ Channel.v_total v < Z.of_nat (length out)
    ∧ match vs !! S j with
      | Some v' => Channel.v_total v' = Channel.v_total v + Channel.v_count v
      | None => total + received_total vs
                = Channel.v_total v + Channel.v_count v
      end.
Proof.
  induction vs as [|v0 vs IH]; intros i total j v Hvs Hj; [done|].
  destruct Hvs as (Hring & Htot & Hroom & _ & Hvs).
  destruct j as [|j]; simpl in Hj.
  - injection Hj as <-. split_and!; [lia|lia|].
    destruct vs as [|v1 vs]; simpl.
    + lia.
    + destruct Hvs as (_ & Htot1 & _). lia.
  - destruct (IH _ _ j v Hvs Hj) as (Hr & Hroom' & Hnext).
    split_and!; [lia|done|].
    change ((v0 :: vs) !! S (S j)) with (vs !! S j).
    destruct (vs !! S j); [done|]. simpl. lia.
Qed.

End ChannelSweep.

(** C6.  [Channel::recv] visits the rings in index order from ring 0, each
    ring's [recv] being handed [out] from the offset of the items written so
    far; it visits at most [producer_count_] rings, stops before the last of
    them only when [out] is full, and returns the sum of what the rings'
    [recv] calls returned, which is the number of cells written.  The
    buffer it leaves is, visit after visit, the cells that ring's [recv]
    wrote, followed by the cells of [out] beyond the total, untouched; each
    visited ring is left as its [recv] left it, every other ring, the
    producer count and the closed flag as they were.  With two producers of
    which the first sent [10, 11] and the second [20, 21], [recv] into ten
    cells returns 4 and [out] begins 10, 11, 20, 21. *)
Theorem channel_recv_sweep (config : Config) :
  config_ok config →
  (∀ (T : Type) (c : Channel.t T) (out : list T),
     channel_wf config c → Z.of_nat (length out) < 2 ^ 64 →
     ∃ out' c' visits,
       Channel.recv_traced config out c
       = (received_total visits, out', c', visits)
       ∧ Channel.recv config out c = (received_total visits, out', c')
       ∧ visits_from config (Channel.rings_ c) out 0 0 visits
       ∧ Z.of_nat (length visits) <= Channel.producer_count_ c
       ∧ (Z.of_nat (length visits) < Channel.producer_count_ c →
          received_total visits = Z.of_nat (length out))
       ∧ 0 <= received_total visits <= Z.of_nat (length out)
       ∧ length out' = length out
       ∧ out' = (visits ≫= visit_items config (Channel.rings_ c) out)
                ++ drop (Z.to_nat (received_total visits)) out
       ∧ Z.of_nat (length (visits ≫= visit_items config (Channel.rings_ c) out))
         = received_total visits
       ∧ (∀ j, Channel.rings_ c' !! j
               = match visits !! j with
                 | Some v => visit_ring config (Channel.rings_ c) out v
                 | None => Channel.rings_ c !! j
                 end)
       ∧ Channel.producer_count_ c' = Channel.producer_count_ c
       ∧ Channel.closed_ c' = Channel.closed_ c)
  ∧ (1 <= ring_bits config → 2 <= max_producers config →
     ∃ c',
       Channel.recv config (replicate 10 0) (two_producers config)
       = (4, [10; 11; 20; 21; 0; 0; 0; 0; 0; 0], c')).
Proof.
  intros Hcfg. split.
  - intros T c out Hwf Hout.
    destruct (recv_traced_trace config Hcfg c out Hwf Hout)
      as (out' & c' & visits & Hrun & Hvs & Hcount & Hstop & Htotal & Hlen
          & Hout' & Hrings & Hpc & Hclosed).
    exists out', c', visits.
    split_and!; try done; try lia.
    + unfold Channel.recv. by rewrite Hrun.
    + pose proof (f_equal length Hout') as Hl.
      rewrite length_app, length_drop in Hl. lia.
  - intros Hbits Hmax.
    destruct (two_producers_recv config Hcfg Hbits Hmax) as [c' Hrun].
    exists c'. unfold Channel.recv. by rewrite Hrun.
Qed.

(** The witness of C6: scenario S4 with the default configuration. *)
Lemma channel_recv_sweep_witness :
  config_ok default_config
  ∧ ∃ c',
      Channel.recv default_config (replicate 10 0) (two_producers default_config)
      = (4, [10; 11; 20; 21; 0; 0; 0; 0; 0; 0], c').
Proof.
  assert (config_ok default_config) as Hcfg by by vm_compute.
  split; [exact Hcfg|].
  apply (channel_recv_sweep default_config Hcfg); by vm_compute.
Defined.

(** C7 as stated fails: in scenario S4 ring 0 returns 2 items for the 10
    cells left, and ring 1 is visited all the same. *)
Lemma recv_passes_short_ring :
  ¬ stops_at_first_short 10
      (Channel.recv_traced cfg4 (replicate 10 0) (two_producers cfg4)).2.
Proof.
  assert ((Channel.recv_traced cfg4 (replicate 10 0) (two_producers cfg4)).2
          = [Channel.mkVisit 0 0 2; Channel.mkVisit 1 2 2]) as ->
    by (vm_compute; reflexivity).
  intros Hstop.
  specialize (Hstop (Channel.mkVisit 0 0 2) (Channel.mkVisit 1 2 2)).
  simpl in Hstop.
  assert (1 <= 0) as Habs; [|lia].
  apply Hstop; [apply list_elem_of_here|apply list_elem_of_further, list_elem_of_here|lia].
Qed.

(** C7, amended.  [Channel::recv] stops at the first ring that fills the
    remaining output, not at one that falls short of it: a visited ring
    whose [recv] returns fewer items than the space left in [out] is
    followed by the next ring whenever there is a next registered ring,
    and a visited ring whose [recv] returns all the space left is the last
    ring visited. *)
Theorem channel_recv_continues (config : Config) {T : Type}
    (c : Channel.t T) (out : list T) (i : nat) (v : Channel.Visit) :
  config_ok config → channel_wf config c → Z.of_nat (length out) < 2 ^ 64 →
  (Channel.recv_traced config out c).2 !! i = Some v →
  Channel.v_ring v = Z.of_nat i
  ∧ (Channel.v_count v < Z.of_nat (length out) - Channel.v_total v →
     Z.of_nat i + 1 < Channel.producer_count_ c →
     ∃ w, (Channel.recv_traced config out c).2 !! S i = Some w
          ∧ Channel.v_ring w = Z.of_nat i + 1)
  ∧ (Channel.v_count v = Z.of_nat (length out) - Channel.v_total v →
     (Channel.recv_traced config out c).2 !! S i = None).
Proof.
  intros Hcfg Hwf Hout.
  destruct (recv_traced_trace config Hcfg c out Hwf Hout)
    as (out' & c' & visits & -> & Hvs & Hlen & Hstop & Htotal & _).
  simpl. intros Hv.
  destruct (visits_from_chain config _ _ _ _ _ _ _ Hvs Hv) as (Hring & Hroom & Hnext).
  split_and!; [lia| |].
  - intros Hshort Hcount.
    destruct (visits !! S i) as [w|] eqn:Hw.
    + exists w. split; [done|].
      destruct (visits_from_chain config _ _ _ _ _ _ _ Hvs Hw) as (-> & _). lia.
    + apply lookup_ge_None in Hw. apply lookup_lt_Some in Hv. lia.
  - intros Hfill.
    destruct (visits !! S i) as [w|] eqn:Hw; [|done].
    destruct (visits_from_chain config _ _ _ _ _ _ _ Hvs Hw) as (_ & Hroomw & _). lia.
Qed.

(** The witness of C7 amended: scenario S4 on two 16-slot rings, at the
    visit of ring 0. *)
Lemma channel_recv_continues_witness :
  ∃ w, (Channel.recv_traced cfg4 (replicate 10 0) (two_producers cfg4)).2 !! 1%nat
       = Some w
       ∧ Channel.v_ring w = 1.
Proof.
  assert (config_ok cfg4) as Hcfg by by vm_compute.
  destruct (channel_recv_continues cfg4 (two_producers cfg4) (replicate 10 0)
              0 (Channel.mkVisit 0 0 2) Hcfg) as (_ & Hnext & _).
  - unfold channel_wf. vm_compute. split_and!; done.
  - by vm_compute.
  - vm_compute. reflexivity.
  - apply Hnext; by vm_compute.
Defined.

(** ** One producer and one consumer: the invariant *)

Section SessionFacts.
Context (config : Config) (Hcfg : config_ok config) {T : Type}.
Implicit Types (s : Session.t T) (r : Ring.t T).

Local Abbreviation CAPACITY := (Ring.CAPACITY config).

Lemma init_inv (buf : list T) :
  length buf = Z.to_nat CAPACITY → session_inv config (Session.init buf).
Proof.
  intros Hbuf. pose proof (CAPACITY_bounds config Hcfg).
  constructor; simpl; try done; try lia.
Qed.

Lemma span_read_length (buf : list T) (sp : Span) :
  0 <= data sp → 0 <= size sp →
  data sp + size sp <= Z.of_nat (length buf) →
  Z.of_nat (length (span_read buf sp)) = size sp.
Proof.
  intros Hd Hs Hfit. unfold span_read. rewrite length_take, length_drop. lia.
Qed.

Lemma span_read_lookup (buf : list T) (sp : Span) (j : nat) :
  0 <= data sp → Z.of_nat j < size sp →
  span_read buf sp !! j = buf !! Z.to_nat (data sp + Z.of_nat j).
Proof.
  intros Hd Hj. unfold span_read.
  rewrite lookup_take_lt, lookup_drop by lia. f_equal. lia.
Qed.

(** [reserve] keeps the invariant, and a reservation it returns is good. *)
Lemma reserve_inv s n res r' :
  session_inv config s → 0 <= n →
  Ring.reserve config n (Session.ring s) = (res, r') →
  session_inv config
    (Session.mk r'
       (match res with Some x => Some x | None => Session.reservation s end)
       (Session.slice_read s) (Session.sent s) (Session.received s)).
Proof.
  intros [Ib Ich Ict Iroom Itail Iof Ihead Irecv Icells Irsv Ird] Hn Hres.
  pose proof (CAPACITY_bounds config Hcfg) as Hcap.
  pose proof (index_range config Hcfg (Ring.tail_ (Session.ring s))) as Hidx.
  apply reserve_cases in Hres as [Hr' Hsome].
  assert (Ring.tail_ r' = Ring.tail_ (Session.ring s)
          ∧ Ring.head_ r' = Ring.head_ (Session.ring s)
          ∧ Ring.cached_tail_ r' = Ring.cached_tail_ (Session.ring s)
          ∧ Ring.buffer_ r' = Ring.buffer_ (Session.ring s)
          ∧ Ring.cached_head_ (Session.ring s) <= Ring.cached_head_ r'
            <= Ring.head_ (Session.ring s))
    as (Ht & Hh & Hct & Hbuf & Hch).
  { destruct Hr' as [-> | ->]; simpl; split_and!; try done; lia. }
  constructor; simpl; rewrite ?Ht, ?Hh, ?Hct, ?Hbuf; try done; try lia.
  intros x Hx. destruct res as [y|].
  - injection Hx as ->. destruct (Hsome x eq_refl) as (Hn0 & HnC & Hroom & ->).
    rewrite Ht in Hroom. simpl. rewrite !(land_MASK config Hcfg).
    rewrite (u64_small (Ring.tail_ (Session.ring s) - Ring.cached_head_ r')) in Hroom by lia.
    rewrite u64_small in Hroom by lia.
    split_and!; [done|done|lia|lia|lia].
  - destruct (Irsv x Hx) as (? & ? & ? & ? & ?).
    split_and!; [done|done|done|done|lia].
Qed.

Lemma copy_to_read (k buf : list T) (off : Z) :
  0 <= off → off + Z.of_nat (length k) <= Z.of_nat (length buf) →
  span_read (copy_to k off buf) (mkSpan off (Z.of_nat (length k))) = k.
Proof.
  intros Hoff Hfit. apply list_eq. intros j.
  destruct (decide (j < length k)%nat) as [Hj|Hj].
  - rewrite span_read_lookup by (simpl; lia). simpl. unfold copy_to.
    rewrite list_lookup_inserts by lia. f_equal. lia.
  - rewrite (lookup_ge_None_2 k) by lia. apply lookup_ge_None_2.
    unfold span_read. simpl. rewrite length_take. lia.
Qed.

(** Publishing [L] cells written at the tail: the ring [r'] is the
    session's ring with the buffer [buf'], which differs from the old one
    in the cells published at most, and the tail advanced by [L]. *)
Lemma publish_inv s r' (buf' : list T) (L : Z) :
  session_inv config s →
  1 <= L →
  Ring.tail_ (Session.ring s) mod CAPACITY + L <= CAPACITY →
  Ring.tail_ (Session.ring s) + L - Ring.cached_head_ (Session.ring s) <= CAPACITY →
  Ring.tail_ (Session.ring s) + L < 2 ^ 64 →
  length buf' = length (Ring.buffer_ (Session.ring s)) →
  (∀ k : nat,
     Z.of_nat k < Ring.tail_ (Session.ring s) mod CAPACITY
     ∨ Ring.tail_ (Session.ring s) mod CAPACITY + L <= Z.of_nat k →
     buf' !! k = Ring.buffer_ (Session.ring s) !! k) →
  Ring.tail_ r' = Ring.tail_ (Session.ring s) + L →
  Ring.head_ r' = Ring.head_ (Session.ring s) →
  Ring.cached_head_ r' = Ring.cached_head_ (Session.ring s) →
  Ring.cached_tail_ r' = Ring.cached_tail_ (Session.ring s) →
  Ring.buffer_ r' = buf' →
  session_inv config
    (Session.mk r' None (Session.slice_read s)
       (Session.sent s
        ++ span_read buf' (mkSpan (Ring.tail_ (Session.ring s) mod CAPACITY) L))
       (Session.received s)).
Proof.
  intros [Ib Ich Ict Iroom Itail Iof Ihead Irecv Icells Irsv Ird]
    HL Hfit Hroom Hof Hlen Hsame Ht Hh Hch Hct Hbuf.
  pose proof (CAPACITY_bounds config Hcfg) as Hcap.
  pose proof (index_range config Hcfg (Ring.tail_ (Session.ring s))) as Hidx.
  assert (Z.of_nat (length (span_read buf'
            (mkSpan (Ring.tail_ (Session.ring s) mod CAPACITY) L))) = L) as Hsr.
  { apply span_read_length; simpl; lia. }
  constructor; simpl; rewrite ?Ht, ?Hh, ?Hch, ?Hct, ?Hbuf, ?length_app;
    try done; try lia.
  - rewrite take_app_le by lia. done.
  - intros p Hp.
    destruct (Z.lt_ge_cases p (Ring.tail_ (Session.ring s))) as [Hlt|Hge].
    + rewrite lookup_app_l by lia. rewrite <- Icells by lia.
      apply Hsame.
      pose proof (index_range config Hcfg p) as Hpi.
      destruct (Z.lt_ge_cases (p mod CAPACITY)
                  (Ring.tail_ (Session.ring s) mod CAPACITY)) as [|Hin]; [left; lia|].
      destruct (Z.lt_ge_cases (p mod CAPACITY)
                  (Ring.tail_ (Session.ring s) mod CAPACITY + L)) as [Hin'|]; [|right; lia].
      exfalso.
      set (j := p mod CAPACITY - Ring.tail_ (Session.ring s) mod CAPACITY) in *.
      apply (index_apart config Hcfg p (Ring.tail_ (Session.ring s) + j)); [lia|].
      rewrite (index_add config Hcfg) by lia. lia.
    + set (j := p - Ring.tail_ (Session.ring s)).
      replace p with (Ring.tail_ (Session.ring s) + j) by lia.
      rewrite (index_add config Hcfg) by lia.
      rewrite lookup_app_r by lia.
      replace (Z.to_nat (Ring.tail_ (Session.ring s) + j) - length (Session.sent s))%nat
        with (Z.to_nat j) by lia.
      rewrite span_read_lookup by (simpl; lia). simpl. f_equal. lia.
Qed.

(** Reading [n] cells at the head: the ring [r'] is the session's ring
    with the head advanced by [n]. *)
Lemma consume_inv s r' (n : Z) :
  session_inv config s →
  0 <= n →
  Ring.head_ (Session.ring s) mod CAPACITY + n <= CAPACITY →
  Ring.head_ (Session.ring s) + n <= Ring.cached_tail_ (Session.ring s) →
  Ring.head_ r' = Ring.head_ (Session.ring s) + n →
  Ring.tail_ r' = Ring.tail_ (Session.ring s) →
  Ring.cached_head_ r' = Ring.cached_head_ (Session.ring s) →
  Ring.cached_tail_ r' = Ring.cached_tail_ (Session.ring s) →
  Ring.buffer_ r' = Ring.buffer_ (Session.ring s) →
  session_inv config
    (Session.mk r' (Session.reservation s) None (Session.sent s)
       (Session.received s
        ++ span_read (Ring.buffer_ (Session.ring s))
             (mkSpan (Ring.head_ (Session.ring s) mod CAPACITY) n))).
Proof.
  intros [Ib Ich Ict Iroom Itail Iof Ihead Irecv Icells Irsv Ird]
    Hn Hfit Hle Hh Ht Hch Hct Hbuf.
  pose proof (CAPACITY_bounds config Hcfg) as Hcap.
  pose proof (index_range config Hcfg (Ring.head_ (Session.ring s))) as Hidx.
  assert (Z.of_nat (length (span_read (Ring.buffer_ (Session.ring s))
            (mkSpan (Ring.head_ (Session.ring s) mod CAPACITY) n))) = n) as Hsr.
  { apply span_read_length; simpl; lia. }
  constructor; simpl; rewrite ?Ht, ?Hh, ?Hch, ?Hct, ?Hbuf, ?length_app;
    try done; try lia.
  - apply list_eq. intros k.
    destruct (decide (k < length (Session.received s))%nat) as [Hk|Hk].
    { rewrite lookup_app_l, lookup_take_lt by lia.
      rewrite Irecv, lookup_take_lt by lia. done. }
    rewrite lookup_app_r by lia.
    destruct (decide (Z.of_nat k < Ring.head_ (Session.ring s) + n)) as [Hk'|Hk'].
    + rewrite lookup_take_lt by lia.
      rewrite span_read_lookup by (simpl; lia). simpl.
      rewrite <- (Nat2Z.id k) at 2. rewrite <- (Icells (Z.of_nat k)) by lia.
      f_equal.
      replace (Z.of_nat k)
        with (Ring.head_ (Session.ring s)
              + Z.of_nat (k - length (Session.received s))) by lia.
      rewrite (index_add config Hcfg) by lia. done.
    + rewrite lookup_take_ge by lia. apply lookup_ge_None_2. lia.
  - intros p Hp. apply Icells. lia.
Qed.

(** A write into the reserved slice leaves the published cells alone. *)
Lemma write_inv s x (i : Z) (v : T) :
  session_inv config s → Session.reservation s = Some x →
  0 <= i < size (slice x) →
  session_inv config
    (Session.mk
       (Ring.set_buffer
          (<[Z.to_nat (data (slice x) + i) := v]> (Ring.buffer_ (Session.ring s)))
          (Session.ring s))
       (Session.reservation s) (Session.slice_read s) (Session.sent s)
       (Session.received s)).
Proof.
  intros [Ib Ich Ict Iroom Itail Iof Ihead Irecv Icells Irsv Ird] Hx Hi.
  destruct (Irsv x Hx) as (Hpos & Hdata & Hsize & Hfit & Hroom).
  pose proof (index_range config Hcfg (Ring.tail_ (Session.ring s))) as Hidx.
  constructor; simpl; rewrite ?length_insert; try done.
  intros p Hp. rewrite list_lookup_insert_ne; [by apply Icells|].
  pose proof (index_range config Hcfg p) as Hpi.
  intros Heq.
  apply (index_apart config Hcfg p (Ring.tail_ (Session.ring s) + i)); [lia|].
  rewrite (index_add config Hcfg) by lia. lia.
Qed.

Lemma readable_inv s res r' :
  session_inv config s →
  Ring.readable config (Session.ring s) = (res, r') →
  session_inv config
    (Session.mk r' (Session.reservation s) res (Session.sent s)
       (Session.received s)).
Proof.
  intros [Ib Ich Ict Iroom Itail Iof Ihead Irecv Icells Irsv Ird] Hres.
  pose proof (CAPACITY_bounds config Hcfg) as Hcap.
  pose proof (index_range config Hcfg (Ring.head_ (Session.ring s))) as Hidx.
  apply (readable_cases config Hcfg) in Hres as (Hr' & _ & Hsome).
  assert (Ring.tail_ r' = Ring.tail_ (Session.ring s)
          ∧ Ring.head_ r' = Ring.head_ (Session.ring s)
          ∧ Ring.cached_head_ r' = Ring.cached_head_ (Session.ring s)
          ∧ Ring.buffer_ r' = Ring.buffer_ (Session.ring s)
          ∧ Ring.head_ (Session.ring s) <= Ring.cached_tail_ r'
            <= Ring.tail_ (Session.ring s))
    as (Ht & Hh & Hch & Hbuf & Hct).
  { destruct Hr' as [-> | ->]; simpl; split_and!; try done; lia. }
  constructor; simpl; rewrite ?Ht, ?Hh, ?Hch, ?Hbuf; try done; try lia.
  intros sl ->. destruct (Hsome sl eq_refl) as [Hne ->]. simpl.
  rewrite u64_small by lia. lia.
Qed.

(** Taking [n] cells of the slice last returned by [readable]. *)
Lemma advance_inv s sl (n : Z) :
  session_inv config s → Session.slice_read s = Some sl →
  0 <= n <= size sl →
  session_inv config
    (Session.mk (Ring.advance config n (Session.ring s))
       (Session.reservation s) None (Session.sent s)
       (Session.received s
        ++ take (Z.to_nat n) (span_read (Ring.buffer_ (Session.ring s)) sl))).
Proof.
  intros Hinv Hsl Hn.
  pose proof Hinv as [Ib Ich Ict Iroom Itail Iof Ihead Irecv Icells Irsv Ird].
  destruct (Ird sl Hsl) as (Hdata & Hsize & Hfit & Hle).
  destruct (advance_fields config n (Session.ring s))
    as (Hh & Ht & Hch & Hct & _ & Hbuf).
  rewrite (u64_small n), u64_small in Hh by lia.
  assert (take (Z.to_nat n) (span_read (Ring.buffer_ (Session.ring s)) sl)
          = span_read (Ring.buffer_ (Session.ring s))
              (mkSpan (Ring.head_ (Session.ring s) mod CAPACITY) n)) as ->.
  { unfold span_read. simpl. rewrite take_take, Hdata. f_equal. lia. }
  apply consume_inv; (done || lia).
Qed.

(** Every call of the contract keeps the invariant, as long as the 64-bit
    tail counter does not overflow. *)
Lemma step_inv s (o : Session.op T) s' :
  session_inv config s → Session.step config s o = Some s' →
  Z.of_nat (length (Session.sent s')) < 2 ^ 64 →
  session_inv config s'.
Proof.
  intros Hinv Hstep Hof.
  pose proof Hinv as [Ib Ich Ict Iroom Itail Iof Ihead Irecv Icells Irsv Ird].
  pose proof (CAPACITY_bounds config Hcfg) as Hcap.
  pose proof (index_range config Hcfg (Ring.tail_ (Session.ring s))) as Hidx.
  destruct o as [n|i v| |items| |n|out|]; simpl in Hstep.
  - (* reserve *)
    destruct ((0 <=? n) && (n <? 2 ^ 64)) eqn:Hrange; [|done].
    apply andb_true_iff in Hrange as [Hn0%Z.leb_le _].
    destruct (Ring.reserve config n (Session.ring s)) as [res r'] eqn:E.
    injection Hstep as <-. by apply (reserve_inv s n).
  - (* write *)
    destruct (Session.reservation s) as [x|] eqn:Hx; [|done].
    destruct (Z.leb_spec 0 i); [|done].
    destruct (Z.ltb_spec i (size (slice x))); [|done]. simpl in Hstep.
    injection Hstep as <-. rewrite <- Hx. by apply write_inv.
  - (* commit *)
    destruct (Session.reservation s) as [x|] eqn:Hx; [|done].
    injection Hstep as <-. simpl in Hof.
    destruct (Irsv x eq_refl) as (Hpos & Hdata & Hsize & Hfit & Hroom).
    rewrite length_app, Nat2Z.inj_add, span_read_length in Hof by lia.
    destruct (commit_fields config (size (slice x)) (Session.ring s))
      as (Ht & Hh & Hch & Hct & _ & Hbuf).
    rewrite (u64_small (size (slice x))), u64_small in Ht by lia.
    replace (slice x) with (mkSpan (Ring.tail_ (Session.ring s) mod CAPACITY)
                              (size (slice x)))
      by (destruct (slice x); simpl in *; by subst).
    simpl size. apply publish_inv; (done || lia).
  - (* send *)
    unfold Ring.send in Hstep.
    destruct (Ring.reserve config (Z.of_nat (length items)) (Session.ring s))
      as [[x|] r1] eqn:E.
    + pose proof (reserve_inv s (Z.of_nat (length items)) _ _ Hinv ltac:(lia) E)
        as Hinv1.
      apply reserve_cases in E as [_ Hx].
      destruct (Hx x eq_refl) as (_ & _ & _ & Hshape).
      pose proof Hinv1 as [Ib1 _ _ _ Itail1 _ _ _ _ Irsv1 _]. simpl in *.
      destruct (Irsv1 x eq_refl) as (Hpos & Hdata & Hsize & Hfit & Hroom).
      pose proof (index_range config Hcfg (Ring.tail_ r1)) as Hidx1.
      assert (size (slice x) <= Z.of_nat (length items)) as Hshort.
      { rewrite Hshape. simpl. lia. }
      destruct (Z.eqb_spec (size (slice x)) 0); [lia|].
      injection Hstep as <-. simpl in Hof.
      set (k := take (Z.to_nat (size (slice x))) items) in *.
      assert (Z.of_nat (length k) = size (slice x)) as Hk.
      { unfold k. rewrite length_take. lia. }
      rewrite length_app, Nat2Z.inj_add, Hk in Hof.
      set (buf' := copy_to k (data (slice x)) (Ring.buffer_ r1)).
      destruct (commit_fields config (size (slice x)) (Ring.set_buffer buf' r1))
        as (Ht & Hh & Hch & Hct & _ & Hbuf).
      simpl in Ht, Hh, Hch, Hct, Hbuf.
      rewrite (u64_small (size (slice x))), u64_small in Ht by lia.
      assert (k = span_read buf' (mkSpan (Ring.tail_ r1 mod CAPACITY) (size (slice x))))
        as Hread.
      { rewrite <- Hdata, <- Hk. symmetry. apply copy_to_read; lia. }
      rewrite Hread at 1.
      apply (publish_inv
               (Session.mk r1 (Some x) (Session.slice_read s) (Session.sent s)
                  (Session.received s))); simpl; try (done || lia).
      * unfold buf', copy_to. by rewrite length_inserts.
      * intros j Hj. unfold buf', copy_to.
        destruct Hj; [apply list_lookup_inserts_lt|apply list_lookup_inserts_ge]; lia.
    + pose proof (reserve_inv s (Z.of_nat (length items)) _ _ Hinv ltac:(lia) E)
        as Hinv1.
      simpl in Hstep. injection Hstep as <-. by rewrite app_nil_r.
  - (* readable *)
    destruct (Ring.readable config (Session.ring s)) as [res r'] eqn:E.
    injection Hstep as <-. by apply readable_inv.
  - (* advance *)
    destruct (Session.slice_read s) as [sl|] eqn:Hsl; [|done].
    destruct (Z.leb_spec 0 n); [|done].
    destruct (Z.leb_spec n (size sl)); [|done]. simpl in Hstep.
    injection Hstep as <-. by apply advance_inv.
  - (* recv *)
    unfold Ring.recv in Hstep.
    destruct (Ring.readable config (Session.ring s)) as [[sl|] r1] eqn:E.
    + pose proof (readable_inv s _ _ Hinv E) as Hinv1.
      apply (readable_size config Hcfg) in E as (Hsz & _ & Hfit).
      injection Hstep as <-.
      set (n := Z.min (size sl) (Z.of_nat (length out))).
      set (k := take (Z.to_nat n) (span_read (Ring.buffer_ r1) sl)).
      pose proof Hinv1 as [Ib1 _ _ _ _ _ _ _ _ _ Ird1]. simpl in *.
      destruct (Ird1 sl eq_refl) as (Hdata & _ & _ & _).
      assert (length k = Z.to_nat n) as Hk.
      { unfold k, span_read. rewrite !length_take, length_drop. lia. }
      assert (take (Z.to_nat n) (copy_to k 0 out) = k) as ->.
      { rewrite <- Hk. apply copy_to_take. lia. }
      apply (advance_inv
               (Session.mk r1 (Session.reservation s) (Some sl) (Session.sent s)
                  (Session.received s)) sl n); [done|done|lia].
    + pose proof (readable_inv s _ _ Hinv E) as Hinv1.
      injection Hstep as <-. simpl. by rewrite app_nil_r.
  - (* close *)
    injection Hstep as <-. constructor; simpl; done.
Qed.

Lemma step_sent s (o : Session.op T) s' :
  Session.step config s o = Some s' →
  (length (Session.sent s) ≤ length (Session.sent s'))%nat.
Proof.
  intros Hstep. destruct o as [n|i v| |items| |n|out|]; simpl in Hstep;
    repeat match type of Hstep with
           | (if ?b then _ else _) = _ => destruct b; [|done]
           | match ?x with Some _ => _ | None => _ end = _ =>
               destruct x; [|done]
           | (let '(_, _) := ?x in _) = _ => destruct x as [? ?]
           end;
    try (injection Hstep as <-; simpl; rewrite ?length_app; lia).
Qed.

Lemma run_sent (ops : list (Session.op T)) :
  ∀ s s', Session.run config s ops = Some s' →
    (length (Session.sent s) ≤ length (Session.sent s'))%nat.
Proof.
  induction ops as [|o ops IH]; intros s s' Hrun; simpl in Hrun.
  - by injection Hrun as <-.
  - destruct (Session.step config s o) as [s1|] eqn:E; [|done].
    apply step_sent in E. apply IH in Hrun. lia.
Qed.

Lemma run_inv (ops : list (Session.op T)) :
  ∀ s s', session_inv config s → Session.run config s ops = Some s' →
    Z.of_nat (length (Session.sent s')) < 2 ^ 64 →
    session_inv config s'.
Proof.
  induction ops as [|o ops IH]; intros s s' Hinv Hrun Hof; simpl in Hrun.
  - by injection Hrun as <-.
  - destruct (Session.step config s o) as [s1|] eqn:E; [|done].
    apply (IH s1); [|done|done].
    apply (step_inv s o); [done|done|].
    apply run_sent in Hrun. lia.
Qed.

End SessionFacts.

(** ** One producer and one consumer: order and bounds *)

(** C2.  Whatever the calls of the producer (reserve, writes into the
    reserved slice, commit, send) and of the consumer (readable, advance,
    recv) and however they interleave, the values the consumer has read are
    the first of the values the producer committed, in the order of their
    commits: when it has read as many values as were committed, it has read
    exactly those values in that order. *)
Theorem fifo_within_ring (config : Config) {T : Type} (buf : list T)
    (ops : list (Session.op T)) (s : Session.t T) :
  config_ok config →
  length buf = Z.to_nat (Ring.CAPACITY config) →
  Session.run config (Session.init buf) ops = Some s →
  Z.of_nat (length (Session.sent s)) < 2 ^ 64 →
  Session.received s = take (length (Session.received s)) (Session.sent s)
  ∧ (length (Session.received s) = length (Session.sent s) →
     Session.received s = Session.sent s).
Proof.
  intros Hcfg Hbuf Hrun Hof.
  assert (session_inv config s) as [_ _ _ _ _ _ _ Hrecv _ _ _].
  { apply (run_inv config Hcfg ops (Session.init buf)); [|done|done].
    by apply init_inv. }
  split; [done|].
  intros Hall. rewrite Hrecv, Hall. apply take_ge. lia.
Qed.

(** The witness of C2: scenario S1 on a 16-slot ring. *)
Lemma fifo_within_ring_witness :
  ∃ s, Session.run cfg4 (Session.init (replicate 16 0)) s1_calls = Some s
       ∧ Session.sent s = [100; 200; 300; 400]
       ∧ Session.received s = Session.sent s.
Proof.
  eexists. split; [vm_compute; reflexivity|]. split; [reflexivity|].
  eapply (fifo_within_ring cfg4 (replicate 16 0) s1_calls).
  - by vm_compute.
  - reflexivity.
  - vm_compute. reflexivity.
  - by vm_compute.
  - reflexivity.
Defined.

(** Without [consume_batch] the positions stay ordered and less than a lap
    apart, and a reservation never reaches cells not yet consumed. *)
Lemma run_positions (config : Config) {T : Type} (buf : list T)
    (ops : list (Session.op T)) (s : Session.t T) :
  config_ok config →
  length buf = Z.to_nat (Ring.CAPACITY config) →
  Session.run config (Session.init buf) ops = Some s →
  Z.of_nat (length (Session.sent s)) < 2 ^ 64 →
  Ring.head_ (Session.ring s) <= Ring.tail_ (Session.ring s)
  ∧ Ring.tail_ (Session.ring s) - Ring.head_ (Session.ring s)
    <= Ring.CAPACITY config
  ∧ ∀ x, Session.reservation s = Some x →
      Ring.tail_ (Session.ring s) + size (slice x) - Ring.head_ (Session.ring s)
      <= Ring.CAPACITY config.
Proof.
  intros Hcfg Hbuf Hrun Hof.
  assert (session_inv config s) as [_ Ich Ict Iroom _ _ _ _ _ Irsv _].
  { apply (run_inv config Hcfg ops (Session.init buf)); [|done|done].
    by apply init_inv. }
  split_and!; [lia|lia|].
  intros x Hx. destruct (Irsv x Hx) as (_ & _ & _ & _ & Hroom). lia.
Qed.

(** C3 (the code departs from it).  [consume_batch] stores the tail into
    [head_] and leaves [cached_tail_] behind it.  On a 16-slot ring: send
    one item, drain it with [consume_batch]; the ring is empty, head and
    tail are both 1.  The next [readable] subtracts the head from the stale
    cached tail 0, takes the wrapped difference for items to read and
    returns 15 cells; [recv] into ten cells copies ten of them and advances
    the head to 11, past the tail. *)
Theorem consume_batch_then_recv :
  let r1 := (Ring.send cfg4 [7] (Ring.init (replicate 16 0))).2 in
  ∃ r2 out r3,
    Ring.consume_batch cfg4 1 collect [] r1 = Some (1, [7], r2)
    ∧ Ring.is_empty r2 = true
    ∧ Ring.head_ r2 = 1 ∧ Ring.tail_ r2 = 1 ∧ Ring.cached_tail_ r2 = 0
    ∧ (Ring.readable cfg4 r2).1 = Some (mkSpan 1 15)
    ∧ Ring.recv cfg4 (replicate 10 0) r2 = (10, out, r3)
    ∧ Ring.head_ r3 = 11 ∧ Ring.tail_ r3 = 1.
Proof.
  intros r1. do 3 eexists.
  split_and!; [vm_compute; reflexivity|reflexivity..|vm_compute; reflexivity| |];
    reflexivity.
Qed.


(** * Further properties of the code *)

(** ** detail::is_power_of_two *)

(** [is_power_of_two] (the [v & (v - 1)] test) answers true exactly on the
    powers of two, for every [v] a [std::size_t] can hold; 0 is refused. *)
Theorem is_power_of_two_iff (v : Z) :
  0 <= v < 2 ^ 64 →
  is_power_of_two v = true ↔ ∃ k, 0 <= k ∧ v = 2 ^ k.
Proof.
  intros Hv. unfold is_power_of_two. split.
  - intros [Hne Hland]%andb_true_iff.
    apply negb_true_iff, Z.eqb_neq in Hne. apply Z.eqb_eq in Hland.
    rewrite u64_small in Hland by lia.
    exists (Z.log2 v). split; [apply Z.log2_nonneg|].
    destruct (Z.log2_spec v) as [Hlo Hhi]; [lia|].
    destruct (decide (v = 2 ^ Z.log2 v)) as [|Hgt]; [done|exfalso].
    pose proof (Z.pow_pos_nonneg 2 (Z.log2 v) ltac:(lia) (Z.log2_nonneg v)) as Hpow.
    assert (Z.log2 (v - 1) = Z.log2 v) as Hlog.
    { apply Z.log2_unique; [apply Z.log2_nonneg|lia]. }
    assert (Z.testbit (Z.land v (v - 1)) (Z.log2 v) = true) as Hbit.
    { rewrite Z.land_spec, Z.bit_log2 by lia.
      rewrite <- Hlog. rewrite Z.bit_log2 by lia. done. }
    by rewrite Hland, Z.bits_0 in Hbit.
  - intros (k & Hk & ->).
    pose proof (Z.pow_pos_nonneg 2 k) as Hpos.
    destruct (Z.eqb_spec (2 ^ k) 0); [lia|]. simpl.
    rewrite u64_small by lia.
    rewrite Z.sub_1_r, <- Z.ones_equiv, Z.land_ones, Z.mod_same by lia. done.
Qed.

(** The test at 65536 (the default capacity), at 0 and at 48. *)
Lemma is_power_of_two_iff_witness :
  (is_power_of_two 65536 = true ↔ ∃ k, 0 <= k ∧ 65536 = 2 ^ k)
  ∧ is_power_of_two 0 = false ∧ is_power_of_two 48 = false.
Proof.
  split; [apply (is_power_of_two_iff 65536); lia|]. split; reflexivity.
Defined.

(** ** The ring between calls *)

Lemma cfg4_ok : config_ok cfg4.
Proof. by vm_compute. Qed.

Lemma copy_to_prefix {T} (k out : list T) :
  (length k ≤ length out)%nat → copy_to k 0 out = k ++ drop (length k) out.
Proof.
  intros Hk. unfold copy_to. simpl.
  rewrite <- (take_drop (length k) out) at 1.
  apply list_inserts_0_r. rewrite length_take. lia.
Qed.

Lemma copy_to_read_take {T} (items buf : list T) (off L : Z) :
  0 <= off → 0 <= L <= Z.of_nat (length items) →
  off + L <= Z.of_nat (length buf) →
  span_read (copy_to (take (Z.to_nat L) items) off buf) (mkSpan off L)
  = take (Z.to_nat L) items.
Proof.
  intros Hoff HL Hfit.
  assert (Z.of_nat (length (take (Z.to_nat L) items)) = L) as Hk.
  { rewrite length_take. lia. }
  etrans; [|apply (copy_to_read (take (Z.to_nat L) items) buf off); lia].
  by rewrite Hk.
Qed.

(** The cells at consecutive positions, read through a [cell_handler], are
    the values committed at those positions. *)
Lemma foldl_cells_at (config : Config) {T H : Type} (f : H → T → H)
    (buf sent : list T) (lo hi : Z) :
  (∀ p, lo <= p < hi →
     buf !! Z.to_nat (p mod Ring.CAPACITY config) = sent !! Z.to_nat p) →
  0 <= lo → hi <= Z.of_nat (length sent) →
  ∀ (d : nat) (p0 : Z) (h : H),
    lo <= p0 → p0 + Z.of_nat d <= hi →
    foldl (λ h p, cell_handler f h buf (p mod Ring.CAPACITY config)) h
      (seqZ p0 (Z.of_nat d))
    = foldl f h (take d (drop (Z.to_nat p0) sent)).
Proof.
  intros Hcells Hlo Hhi.
  induction d as [|d IH]; intros p0 h Hp0 Hd.
  - by rewrite take_0.
  - rewrite seqZ_cons by lia. simpl.
    assert (is_Some (sent !! Z.to_nat p0)) as [x Hx].
    { apply lookup_lt_is_Some. lia. }
    rewrite (drop_S _ x) by done. simpl.
    unfold cell_handler at 2. rewrite Hcells, Hx by lia.
    replace (Z.pred (Z.of_nat (S d))) with (Z.of_nat d) by lia.
    rewrite IH by lia. do 3 f_equal. lia.
Qed.

(** [consume_batch] on a ring whose cells from head to tail hold the values
    [sent] from position head on. *)
Lemma consume_batch_cells (config : Config) (Hcfg : config_ok config)
    {T H : Type} (f : H → T → H) (h : H) (r : Ring.t T) (sent : list T)
    (fuel : nat) :
  0 <= Ring.head_ r <= Ring.tail_ r →
  Ring.tail_ r = Z.of_nat (length sent) → Ring.tail_ r < 2 ^ 64 →
  (∀ p, Ring.head_ r <= p < Ring.tail_ r →
     Ring.buffer_ r !! Z.to_nat (p mod Ring.CAPACITY config)
     = sent !! Z.to_nat p) →
  (Z.to_nat (Ring.len r) ≤ fuel)%nat →
  ∃ r',
    Ring.consume_batch config fuel (cell_handler f) h r
    = Some (Ring.len r, foldl f h (drop (Z.to_nat (Ring.head_ r)) sent), r')
    ∧ Ring.head_ r' = Ring.tail_ r
    ∧ Ring.tail_ r' = Ring.tail_ r
    ∧ Ring.cached_head_ r' = Ring.cached_head_ r
    ∧ Ring.cached_tail_ r' = Ring.cached_tail_ r
    ∧ Ring.buffer_ r' = Ring.buffer_ r
    ∧ Ring.closed_ r' = Ring.closed_ r.
Proof.
  intros Hht Htail Hof Hcells Hfuel.
  assert (Ring.len r = Ring.tail_ r - Ring.head_ r) as Hlen.
  { unfold Ring.len. apply u64_small. lia. }
  unfold Ring.consume_batch. fold (Ring.len r).
  destruct (Z.eqb_spec (Ring.len r) 0) as [E0|E0].
  - exists r. rewrite E0, drop_ge by lia. simpl.
    split_and!; (done || lia).
  - rewrite (consume_loop_run config Hcfg) by (fold (Ring.len r); lia).
    fold (Ring.len r). rewrite positions_ordered by lia.
    replace (Ring.tail_ r - Ring.head_ r)
      with (Z.of_nat (Z.to_nat (Ring.len r))) by lia.
    rewrite (foldl_cells_at config f _ sent (Ring.head_ r) (Ring.tail_ r))
      by (done || lia).
    rewrite take_ge by (rewrite length_drop; lia).
    simpl. eexists. split; [reflexivity|].
    unfold Ring.received_metrics.
    destruct (enable_metrics config); simpl; done.
Qed.

Section Reached.
Context (config : Config) (Hcfg : config_ok config) {T : Type}.
Context (buf : list T) (ops : list (Session.op T)) (s : Session.t T).
Context (Hbuf : length buf = Z.to_nat (Ring.CAPACITY config)).
Context (Hrun : Session.run config (Session.init buf) ops = Some s).
Context (Hof : Z.of_nat (length (Session.sent s)) < 2 ^ 64).

Local Abbreviation CAPACITY := (Ring.CAPACITY config).
Local Abbreviation r := (Session.ring s).

Lemma reached_inv : session_inv config s.
Proof.
  apply (run_inv config Hcfg ops (Session.init buf)); [|done|done].
  by apply init_inv.
Qed.

Lemma reached_len :
  Ring.len r
  = Z.of_nat (length (Session.sent s)) - Z.of_nat (length (Session.received s))
  ∧ 0 <= Ring.len r <= CAPACITY
  ∧ Ring.len r = Ring.tail_ r - Ring.head_ r.
Proof.
  destruct reached_inv as [_ Ich Ict Iroom Itail Iof Ihead _ _ _ _].
  unfold Ring.len. rewrite u64_small by lia. lia.
Qed.

(** [len] is the number of items committed and not yet consumed, at most
    [CAPACITY]; [is_empty] says there is none and [is_full] that there are
    [CAPACITY] of them. *)
Theorem len_counts_pending :
  Ring.len r
  = Z.of_nat (length (Session.sent s)) - Z.of_nat (length (Session.received s))
  ∧ 0 <= Ring.len r <= CAPACITY
  ∧ (Ring.is_empty r = true ↔ length (Session.received s) = length (Session.sent s))
  ∧ (Ring.is_full config r = true ↔ Ring.len r = CAPACITY).
Proof.
  destruct reached_len as (Hlen & Hrange & Hth).
  destruct reached_inv as [_ _ _ _ Itail _ Ihead _ _ _ _].
  split_and!; [done|lia|lia| |].
  - unfold Ring.is_empty. rewrite Z.eqb_eq. lia.
  - unfold Ring.is_full. rewrite Z.leb_le. lia.
Qed.

(** A request for more slots than are free is refused, whether the ring is
    open or closed: [reserve] returns none, and [send] returns 0 and leaves
    the buffer and both positions as they were. *)
Theorem no_room_refused (n : Z) (items : list T) :
  (CAPACITY - Ring.len r < n → (Ring.reserve config n r).1 = None)
  ∧ (CAPACITY - Ring.len r < Z.of_nat (length items) →
     (Ring.send config items r).1 = 0
     ∧ Ring.buffer_ (Ring.send config items r).2 = Ring.buffer_ r
     ∧ Ring.tail_ (Ring.send config items r).2 = Ring.tail_ r
     ∧ Ring.head_ (Ring.send config items r).2 = Ring.head_ r).
Proof.
  destruct reached_len as (_ & Hrange & Hlen).
  destruct reached_inv as [_ Ich Ict Iroom Itail Iof Ihead _ _ _ _].
  assert (∀ m, CAPACITY - Ring.len r < m →
            ∃ r', Ring.reserve config m r = (None, r')
                  ∧ (r' = r ∨ r' = Ring.set_cached_head (Ring.head_ r) r))
    as Hrefused.
  { intros m Hm.
    destruct (Ring.reserve config m r) as [res r'] eqn:E.
    apply reserve_cases in E as [Hr' Hsome].
    exists r'. split; [|done]. f_equal.
    destruct res as [x|]; [exfalso|done].
    destruct (Hsome x eq_refl) as (_ & _ & Hroom & _).
    assert (Ring.tail_ r' = Ring.tail_ r
            ∧ Ring.cached_head_ r <= Ring.cached_head_ r' <= Ring.head_ r)
      as (Ht & Hch).
    { destruct Hr' as [-> | ->]; simpl; lia. }
    pose proof (CAPACITY_bounds config Hcfg) as Hcap.
    rewrite Ht in Hroom.
    rewrite (u64_small (Ring.tail_ r - Ring.cached_head_ r')) in Hroom by lia.
    rewrite u64_small in Hroom; lia. }
  split.
  - intros Hn. destruct (Hrefused n Hn) as (r' & -> & _). done.
  - intros Hn. unfold Ring.send.
    destruct (Hrefused _ Hn) as (r' & -> & [-> | ->]); done.
Qed.

(** An open ring with [n] free slots grants a request for [n]: at the index
    of the tail, as many cells as fit before the end of the buffer. *)
Lemma reserve_with_room (n : Z) :
  Ring.closed_ r = false → 1 <= n <= CAPACITY - Ring.len r →
  ∃ r',
    Ring.reserve config n r
    = (Some (mkReservation
               (mkSpan (Ring.tail_ r mod CAPACITY)
                       (Z.min n (CAPACITY - Ring.tail_ r mod CAPACITY)))
               (Ring.tail_ r)), r')
    ∧ (r' = r ∨ r' = Ring.set_cached_head (Ring.head_ r) r).
Proof.
  intros Hopen Hn.
  destruct reached_len as (_ & Hrange & Hlen).
  destruct reached_inv as [_ Ich Ict Iroom Itail Iof Ihead _ _ _ _].
  pose proof (CAPACITY_bounds config Hcfg) as Hcap.
  unfold Ring.reserve, Ring.make_reservation, Ring.is_closed.
  destruct (Z.eqb_spec n 0); [lia|].
  destruct (Z.ltb_spec CAPACITY n); [lia|]. simpl.
  rewrite (land_MASK config Hcfg).
  rewrite (u64_small (Ring.tail_ r - Ring.cached_head_ r)) by lia.
  rewrite (u64_small (CAPACITY - _)) by lia.
  destruct (Z.leb_spec n (CAPACITY - (Ring.tail_ r - Ring.cached_head_ r))).
  { exists r. split; [done|by left]. }
  rewrite (u64_small (Ring.tail_ r - Ring.head_ r)) by lia.
  rewrite (u64_small (CAPACITY - _)) by lia.
  destruct (Z.ltb_spec (CAPACITY - (Ring.tail_ r - Ring.head_ r)) n); [lia|].
  rewrite Hopen. simpl. eexists. split; [done|by right].
Qed.

(** An open ring with [n] free slots grants a request for [n] slots: the
    slice starts at the index of the tail, holds as many of the [n] cells as
    fit before the end of the buffer, at least one, and covers none of the
    pending items; positions and buffer are left as they were. *)
Theorem room_granted (n : Z) :
  Ring.closed_ r = false → 1 <= n <= CAPACITY - Ring.len r →
  ∃ x r',
    Ring.reserve config n r = (Some x, r')
    ∧ pos x = Ring.tail_ r
    ∧ data (slice x) = Ring.tail_ r mod CAPACITY
    ∧ size (slice x) = Z.min n (CAPACITY - Ring.tail_ r mod CAPACITY)
    ∧ 1 <= size (slice x)
    ∧ Ring.len r + size (slice x) <= CAPACITY
    ∧ Ring.tail_ r' = Ring.tail_ r
    ∧ Ring.head_ r' = Ring.head_ r
    ∧ Ring.buffer_ r' = Ring.buffer_ r.
Proof.
  intros Hopen Hn.
  destruct (reserve_with_room n Hopen Hn) as (r' & Hres & Hr').
  pose proof (index_range config Hcfg (Ring.tail_ r)) as Hidx.
  eexists _, r'. split; [exact Hres|]. simpl.
  split_and!; [done|done|done|lia|lia|..];
    destruct Hr' as [-> | ->]; done.
Qed.

(** [send] on an open ring with room for the items: what it returns, and
    the ring it leaves. *)
Lemma send_with_room (items : list T) :
  Ring.closed_ r = false →
  1 <= Z.of_nat (length items) <= CAPACITY - Ring.len r →
  Z.of_nat (length (Session.sent s)) + Z.of_nat (length items) < 2 ^ 64 →
  ∃ L r1,
    L = Z.min (Z.of_nat (length items)) (CAPACITY - Ring.tail_ r mod CAPACITY)
    ∧ 1 <= L
    ∧ Ring.send config items r = (L, r1)
    ∧ Ring.tail_ r1 = Ring.tail_ r + L
    ∧ Ring.head_ r1 = Ring.head_ r
    ∧ Ring.cached_tail_ r1 = Ring.cached_tail_ r
    ∧ Ring.buffer_ r1
      = copy_to (take (Z.to_nat L) items) (Ring.tail_ r mod CAPACITY)
          (Ring.buffer_ r).
Proof.
  intros Hopen Hn Hno.
  destruct (reserve_with_room _ Hopen Hn) as (r' & Hres & Hr').
  destruct reached_inv as [_ Ich Ict Iroom Itail Iof Ihead _ _ _ _].
  pose proof (index_range config Hcfg (Ring.tail_ r)) as Hidx.
  pose proof (CAPACITY_bounds config Hcfg) as Hcap.
  set (L := Z.min (Z.of_nat (length items)) (CAPACITY - Ring.tail_ r mod CAPACITY)).
  unfold Ring.send. rewrite Hres. simpl. fold L.
  exists L, (Ring.commit config L
               (Ring.set_buffer
                  (copy_to (take (Z.to_nat L) items) (Ring.tail_ r mod CAPACITY)
                     (Ring.buffer_ r')) r')).
  destruct (commit_fields config L
              (Ring.set_buffer
                 (copy_to (take (Z.to_nat L) items) (Ring.tail_ r mod CAPACITY)
                    (Ring.buffer_ r')) r'))
    as (Ht & Hh & _ & Hct & _ & Hb).
  rewrite Ht, Hh, Hct, Hb. simpl.
  assert (Ring.tail_ r' = Ring.tail_ r ∧ Ring.head_ r' = Ring.head_ r
          ∧ Ring.cached_tail_ r' = Ring.cached_tail_ r
          ∧ Ring.buffer_ r' = Ring.buffer_ r) as (-> & -> & -> & ->).
  { destruct Hr' as [-> | ->]; done. }
  rewrite (u64_small L), u64_small by lia.
  split_and!; (done || lia).
Qed.

(** [send] of items an open ring has room for places the first [L] of them,
    [L] the number of cells from the tail to the end of the buffer when
    that is less than the number of items: it returns [L], the ring holds
    [L] more items, the cells from the index of the tail hold those items
    and every other cell is as it was. *)
Theorem send_places_prefix (items : list T) :
  Ring.closed_ r = false →
  1 <= Z.of_nat (length items) <= CAPACITY - Ring.len r →
  Z.of_nat (length (Session.sent s)) + Z.of_nat (length items) < 2 ^ 64 →
  let L := Z.min (Z.of_nat (length items)) (CAPACITY - Ring.tail_ r mod CAPACITY) in
  let r1 := (Ring.send config items r).2 in
  (Ring.send config items r).1 = L
  ∧ 1 <= L
  ∧ Ring.len r1 = Ring.len r + L
  ∧ span_read (Ring.buffer_ r1) (mkSpan (Ring.tail_ r mod CAPACITY) L)
    = take (Z.to_nat L) items
  ∧ ∀ k : nat,
      Z.of_nat k < Ring.tail_ r mod CAPACITY
      ∨ Ring.tail_ r mod CAPACITY + L <= Z.of_nat k →
      Ring.buffer_ r1 !! k = Ring.buffer_ r !! k.
Proof.
  intros Hopen Hn Hno L r1.
  destruct (send_with_room items Hopen Hn Hno)
    as (L' & r1' & HL & HL1 & Hsend & Ht & Hh & _ & Hb).
  subst r1. rewrite Hsend. simpl. fold L in HL. subst L'.
  destruct reached_len as (_ & Hrange & Hlen).
  destruct reached_inv as [Ib Ich Ict Iroom Itail Iof Ihead _ _ _ _].
  pose proof (index_range config Hcfg (Ring.tail_ r)) as Hidx.
  assert (Z.of_nat (length (take (Z.to_nat L) items)) = L) as Hk.
  { rewrite length_take. lia. }
  split_and!; [done|done| | |].
  - unfold Ring.len in *. rewrite Ht, Hh.
    rewrite u64_small by lia. lia.
  - rewrite Hb. apply copy_to_read_take; lia.
  - intros k Hk'. rewrite Hb. unfold copy_to.
    destruct Hk'; [apply list_lookup_inserts_lt|apply list_lookup_inserts_ge]; lia.
Qed.

(** [readable] returns none exactly when the ring is empty; a slice it
    returns starts at the index of the head, stays inside the buffer, holds
    at least one and at most [len] items, and its cells hold the oldest
    items not yet consumed, in the order they were committed.  The head is
    left where it was. *)
Theorem readable_oldest :
  ((Ring.readable config r).1 = None ↔ Ring.is_empty r = true)
  ∧ Ring.head_ (Ring.readable config r).2 = Ring.head_ r
  ∧ ∀ sl, (Ring.readable config r).1 = Some sl →
      data sl = Ring.head_ r mod CAPACITY
      ∧ 1 <= size sl <= Ring.len r
      ∧ data sl + size sl <= CAPACITY
      ∧ span_read (Ring.buffer_ r) sl
        = take (Z.to_nat (size sl))
            (drop (length (Session.received s)) (Session.sent s)).
Proof.
  destruct reached_len as (_ & Hrange & Hlen).
  destruct reached_inv as [Ib Ich Ict Iroom Itail Iof Ihead _ Icells _ _].
  pose proof (index_range config Hcfg (Ring.head_ r)) as Hidx.
  pose proof (CAPACITY_bounds config Hcfg) as Hcap.
  destruct (Ring.readable config r) as [res r'] eqn:E. simpl.
  apply (readable_cases config Hcfg) in E as (Hr' & Hnone & Hsome).
  assert (Ring.head_ r' = Ring.head_ r
          ∧ Ring.head_ r <= Ring.cached_tail_ r' <= Ring.tail_ r) as [Hh Hct].
  { destruct Hr' as [-> | ->]; simpl; lia. }
  unfold Ring.is_empty. rewrite Z.eqb_eq.
  split_and!; [|done|].
  - split.
    + intros ->. destruct (Hnone eq_refl) as [_ H0].
      apply u64_sub_0 in H0; lia.
    + intros Hempty. destruct res as [sl|]; [exfalso|done].
      destruct (Hsome sl eq_refl) as [Hne _].
      apply Hne. replace (Ring.cached_tail_ r') with (Ring.head_ r) by lia.
      by rewrite Z.sub_diag.
  - intros sl ->. destruct (Hsome sl eq_refl) as [Hne ->]. simpl.
    rewrite u64_small in * by lia.
    split_and!; [done|lia|lia|lia|].
    set (n := Z.min (Ring.cached_tail_ r' - Ring.head_ r)
                (CAPACITY - Ring.head_ r mod CAPACITY)).
    assert (1 <= n <= Ring.tail_ r - Ring.head_ r) as Hn by lia.
    assert (Ring.head_ r mod CAPACITY + n <= CAPACITY) as Hfit by lia.
    apply list_eq. intros j.
    destruct (decide (Z.of_nat j < n)) as [Hj|Hj].
    + rewrite span_read_lookup by (simpl; lia). simpl.
      rewrite lookup_take_lt, lookup_drop by lia.
      rewrite <- (index_add config Hcfg) by lia.
      rewrite Icells by lia. f_equal. lia.
    + rewrite lookup_take_ge by lia. apply lookup_ge_None_2.
      unfold span_read. simpl. rewrite length_take. lia.
Qed.

(** Round trip on an empty open ring: the items [send] places are the items
    the next [recv] hands over, into the front of [out] and in order, and
    the ring is empty again. *)
Theorem send_recv_round_trip (items out : list T) :
  Ring.closed_ r = false →
  length (Session.received s) = length (Session.sent s) →
  1 <= Z.of_nat (length items) <= CAPACITY →
  Z.of_nat (length (Session.sent s)) + Z.of_nat (length items) < 2 ^ 64 →
  (length items ≤ length out)%nat →
  let L := Z.min (Z.of_nat (length items)) (CAPACITY - Ring.tail_ r mod CAPACITY) in
  ∃ r1 r2,
    Ring.send config items r = (L, r1)
    ∧ Ring.recv config out r1
      = (L, take (Z.to_nat L) items ++ drop (Z.to_nat L) out, r2)
    ∧ 1 <= L
    ∧ Ring.is_empty r2 = true.
Proof.
  intros Hopen Hempty Hn Hno Hout L.
  destruct reached_len as (Hlen0 & Hrange & Hlen).
  destruct reached_inv as [Ib Ich Ict Iroom Itail Iof Ihead _ _ _ _].
  pose proof (index_range config Hcfg (Ring.tail_ r)) as Hidx.
  pose proof (CAPACITY_bounds config Hcfg) as Hcap.
  destruct (send_with_room items Hopen ltac:(lia) Hno)
    as (L' & r1 & HL & HL1 & Hsend & Ht & Hh & Hct & Hb).
  fold L in HL. subst L'.
  assert (Ring.head_ r = Ring.tail_ r) as Hht by lia.
  assert (Z.of_nat (length (take (Z.to_nat L) items)) = L) as Hk.
  { rewrite length_take. lia. }
  exists r1. eexists. split; [done|].
  unfold Ring.recv.
  assert (u64 (Ring.cached_tail_ r1 - Ring.head_ r1) = 0) as Hc0.
  { rewrite Hct, Hh. replace (Ring.cached_tail_ r) with (Ring.head_ r) by lia.
    by rewrite Z.sub_diag. }
  assert (u64 (Ring.tail_ r1 - Ring.head_ r1) ≠ 0) as Hne.
  { rewrite Ht, Hh, Hht, u64_small by lia. lia. }
  rewrite (readable_refresh config Hcfg r1 Hc0 Hne).
  rewrite Ht, Hh, Hht.
  replace (Ring.tail_ r + L - Ring.tail_ r) with L by lia.
  rewrite (u64_small L) by lia.
  rewrite (Z.min_l L (CAPACITY - _)) by lia.
  cbn [size data Ring.buffer_ Ring.set_cached_tail].
  rewrite (Z.min_l L (Z.of_nat (length out))) by lia.
  rewrite Hb, copy_to_read_take by lia.
  rewrite take_take, Nat.min_id.
  rewrite copy_to_prefix by lia.
  replace (length (take (Z.to_nat L) items)) with (Z.to_nat L) by lia.
  split_and!; [reflexivity|done|].
  destruct (advance_fields config L (Ring.set_cached_tail (Ring.tail_ r + L) r1))
    as (Hh2 & Ht2 & _).
  unfold Ring.is_empty. rewrite Hh2, Ht2. simpl.
  rewrite Ht, Hh, Hht, (u64_small L), u64_small by lia.
  apply Z.eqb_refl.
Qed.

(** [consume_batch] hands the handler exactly the items committed and not
    yet consumed, oldest first, returns their number and leaves the ring
    empty. *)
Theorem consume_batch_hands_pending {H : Type} (f : H → T → H) (h : H)
    (fuel : nat) :
  (Z.to_nat (Ring.len r) ≤ fuel)%nat →
  ∃ r',
    Ring.consume_batch config fuel (cell_handler f) h r
    = Some (Ring.len r,
            foldl f h (drop (length (Session.received s)) (Session.sent s)),
            r')
    ∧ Ring.is_empty r' = true
    ∧ Ring.tail_ r' = Ring.tail_ r.
Proof.
  intros Hfuel.
  destruct reached_inv as [_ Ich Ict _ Itail Iof Ihead _ Icells _ _].
  destruct (consume_batch_cells config Hcfg f h r (Session.sent s) fuel)
    as (r' & Hbatch & Hh & Ht & _); [lia|done|done|done|done|].
  exists r'. rewrite Hbatch, Ihead, Nat2Z.id.
  split_and!; [done| |done].
  unfold Ring.is_empty. rewrite Hh, Ht. apply Z.eqb_refl.
Qed.

(** With room for the request on an open ring, [reserve_with_backoff]
    returns the reservation of its first [reserve] call: one attempt, no
    snooze, whatever the bound on the attempts. *)
Theorem backoff_grants_at_once (n : Z) (fuel : nat) :
  Ring.closed_ r = false → 1 <= n <= CAPACITY - Ring.len r →
  ∃ x r',
    Ring.reserve_with_backoff config (S fuel) (λ _ r, r) n r
    = Some (Some x, r', 1%nat)
    ∧ Ring.reserve config n r = (Some x, r')
    ∧ pos x = Ring.tail_ r
    ∧ size (slice x) = Z.min n (CAPACITY - Ring.tail_ r mod CAPACITY).
Proof.
  intros Hopen Hn.
  destruct (reserve_with_room n Hopen Hn) as (r' & Hres & _).
  eexists _, r'. unfold Ring.reserve_with_backoff. simpl.
  rewrite Hres. done.
Qed.

End Reached.

(** The hypotheses of the witnesses below are closed and decided by
    evaluation. *)
Ltac evaluated :=
  first [ exact cfg4_ok | vm_compute; reflexivity | by vm_compute
        | vm_compute; lia ].

(** Witness: twelve items sent and five received leave seven pending. *)
Lemma len_counts_pending_witness :
  Ring.len (Session.ring (session4 pending_calls)) = 7.
Proof.
  destruct (len_counts_pending cfg4 cfg4_ok (replicate 16 0) pending_calls
              (session4 pending_calls)) as (Hlen & _); [evaluated..|].
  rewrite Hlen. reflexivity.
Defined.

(** Witness: the full 16-slot ring refuses one more slot and one more
    item. *)
Lemma no_room_refused_witness :
  (Ring.reserve cfg4 1 (Session.ring (session4 full_calls))).1 = None
  ∧ (Ring.send cfg4 [99] (Session.ring (session4 full_calls))).1 = 0.
Proof.
  destruct (no_room_refused cfg4 cfg4_ok (replicate 16 0) full_calls
              (session4 full_calls) ltac:(evaluated) ltac:(evaluated)
              ltac:(evaluated) 1 [99]) as [Hres Hsend].
  split; [apply Hres; evaluated|apply Hsend; evaluated].
Defined.

(** Witness: with head and tail at 12 of 16, a request for 6 slots is
    granted the 4 cells up to the end of the buffer. *)
Lemma room_granted_witness :
  ∃ x r', Ring.reserve cfg4 6 (Session.ring (session4 lap_calls)) = (Some x, r')
          ∧ data (slice x) = 12 ∧ size (slice x) = 4.
Proof.
  destruct (room_granted cfg4 cfg4_ok (replicate 16 0) lap_calls
              (session4 lap_calls) ltac:(evaluated) ltac:(evaluated)
              ltac:(evaluated) 6)
    as (x & r' & Hres & _ & Hdata & Hsize & _); [evaluated..|].
  exists x, r'. split; [exact Hres|]. split; [exact Hdata|exact Hsize].
Defined.

(** Witness: there, [send] of six items places four. *)
Lemma send_places_prefix_witness :
  (Ring.send cfg4 (seqZ 13 6) (Session.ring (session4 lap_calls))).1 = 4.
Proof.
  destruct (send_places_prefix cfg4 cfg4_ok (replicate 16 0) lap_calls
              (session4 lap_calls) ltac:(evaluated) ltac:(evaluated)
              ltac:(evaluated) (seqZ 13 6))
    as (Hsend & _); [evaluated..|].
  exact Hsend.
Defined.

(** Witness: with items 1 to 12 sent and 1 to 5 received, [readable]
    returns the cells of items 6 to 12. *)
Lemma readable_oldest_witness :
  ∃ sl, (Ring.readable cfg4 (Session.ring (session4 pending_calls))).1 = Some sl
        ∧ span_read (Ring.buffer_ (Session.ring (session4 pending_calls))) sl
          = [6; 7; 8; 9; 10; 11; 12].
Proof.
  destruct (readable_oldest cfg4 cfg4_ok (replicate 16 0) pending_calls
              (session4 pending_calls) ltac:(evaluated) ltac:(evaluated)
              ltac:(evaluated)) as (_ & _ & Hsl).
  exists (mkSpan 5 7). split; [reflexivity|].
  destruct (Hsl (mkSpan 5 7) eq_refl) as (_ & _ & _ & ->). reflexivity.
Defined.

(** Witness: three items sent into the empty ring at position 12 come back
    from [recv] into five cells. *)
Lemma send_recv_round_trip_witness :
  ∃ r1 r2,
    Ring.send cfg4 [13; 14; 15] (Session.ring (session4 lap_calls)) = (3, r1)
    ∧ Ring.recv cfg4 (replicate 5 0) r1 = (3, [13; 14; 15; 0; 0], r2).
Proof.
  destruct (send_recv_round_trip cfg4 cfg4_ok (replicate 16 0) lap_calls
              (session4 lap_calls) ltac:(evaluated) ltac:(evaluated)
              ltac:(evaluated) [13; 14; 15] (replicate 5 0))
    as (r1 & r2 & Hsend & Hrecv & _); [evaluated..|].
  exists r1, r2. split; [exact Hsend|exact Hrecv].
Defined.

(** Witness: with items 1 to 12 sent and 1 to 5 received, a collecting
    handler is handed items 6 to 12. *)
Lemma consume_batch_hands_pending_witness :
  ∃ r',
    Ring.consume_batch cfg4 7 (cell_handler (λ h v, h ++ [v])) []
      (Session.ring (session4 pending_calls))
    = Some (7, [6; 7; 8; 9; 10; 11; 12], r').
Proof.
  destruct (consume_batch_hands_pending cfg4 cfg4_ok (replicate 16 0)
              pending_calls (session4 pending_calls) ltac:(evaluated)
              ltac:(evaluated) ltac:(evaluated) (λ h v, h ++ [v]) [] 7)
    as (r' & Hrun & _); [evaluated..|].
  exists r'. exact Hrun.
Defined.

(** Witness: after a lap of twelve, a request for six is granted at the
    first attempt. *)
Lemma backoff_grants_at_once_witness :
  ∃ x r',
    Ring.reserve_with_backoff cfg4 11 (λ _ r, r) 6
      (Session.ring (session4 lap_calls))
    = Some (Some x, r', 1%nat) ∧ size (slice x) = 4.
Proof.
  destruct (backoff_grants_at_once cfg4 cfg4_ok (replicate 16 0) lap_calls
              (session4 lap_calls) ltac:(evaluated) ltac:(evaluated)
              ltac:(evaluated) 6 10)
    as (x & r' & Hres & _ & _ & Hsize); [evaluated..|].
  exists x, r'. split; [exact Hres|exact Hsize].
Defined.

(** ** Backoff under any mix of calls *)

Lemma count_snoozes_nonneg (cs : list Backoff.call) : 0 <= count_snoozes cs.
Proof. induction cs as [|[|] cs IH]; simpl; lia. Qed.

Lemma backoff_run_step (cs : list Backoff.call) :
  ∀ b, 0 <= Backoff.step_ b <= 11 →
    Z.min (Backoff.step_ b + count_snoozes cs) 11
    <= Backoff.step_ (Backoff.run b cs)
    <= Z.min (Z.max (Backoff.step_ b) 7 + count_snoozes cs) 11.
Proof.
  induction cs as [|c cs IH]; intros b Hb; simpl.
  { lia. }
  pose proof (count_snoozes_nonneg cs) as Hk.
  change (Backoff.run b (c :: cs)) with (Backoff.run (Backoff.do_call b c) cs).
  destruct c; simpl.
  - destruct (Z.le_gt_cases (Backoff.step_ b) 6) as [Hs|Hs].
    + pose proof (spin_step b ltac:(unfold Backoff.SPIN_LIMIT; lia)) as Hstep.
      specialize (IH (Backoff.spin b) ltac:(lia)). lia.
    + rewrite spin_saturated by (unfold Backoff.SPIN_LIMIT; lia).
      specialize (IH b Hb). lia.
  - destruct (Z.le_gt_cases (Backoff.step_ b) 10) as [Hs|Hs].
    + pose proof (snooze_step b ltac:(unfold Backoff.YIELD_LIMIT; lia)) as Hstep.
      specialize (IH (Backoff.snooze b) ltac:(lia)). lia.
    + rewrite snooze_saturated by (unfold Backoff.YIELD_LIMIT; lia).
      specialize (IH b Hb). lia.
Qed.

(** However [spin] and [snooze] calls are mixed on a fresh Backoff: the
    step stays between 0 and [YIELD_LIMIT + 1], so the 32-bit counter never
    wraps; a [spin] executes between 1 and 64 relax instructions, a power
    of two; eleven [snooze] calls among the calls complete the Backoff and
    fewer than four cannot. *)
Theorem backoff_mixed_calls (cs : list Backoff.call) :
  let b := Backoff.run Backoff.fresh cs in
  0 <= Backoff.step_ b <= Backoff.YIELD_LIMIT + 1
  ∧ Backoff.spins b = 2 ^ Z.min (Backoff.step_ b) Backoff.SPIN_LIMIT
  ∧ 1 <= Backoff.spins b <= 64
  ∧ (11 <= count_snoozes cs → Backoff.is_completed b = true)
  ∧ (count_snoozes cs < 4 → Backoff.is_completed b = false).
Proof.
  intros b. pose proof (count_snoozes_nonneg cs) as Hk.
  pose proof (backoff_run_step cs Backoff.fresh ltac:(simpl; lia)) as Hstep.
  fold b in Hstep. simpl in Hstep.
  unfold Backoff.spins, Backoff.is_completed.
  unfold Backoff.YIELD_LIMIT, Backoff.SPIN_LIMIT.
  assert (0 <= Z.min (Backoff.step_ b) 6 <= 6) as Hm by lia.
  rewrite Z.shiftl_1_l.
  assert (1 <= 2 ^ Z.min (Backoff.step_ b) 6 <= 64) as Hpow.
  { split.
    - pose proof (Z.pow_pos_nonneg 2 (Z.min (Backoff.step_ b) 6)). lia.
    - change 64 with (2 ^ 6). apply Z.pow_le_mono_r; lia. }
  rewrite u32_small by lia.
  split_and!; [lia|lia|done|lia|lia| |].
  - intros H11. apply Z.ltb_lt. lia.
  - intros H4. apply Z.ltb_ge. lia.
Qed.

(** ** Closing a ring *)

(** [close] sets the flag and nothing else, and a second [close] changes
    nothing; the consumer's calls behave on the closed ring as on the open
    one: [readable], [recv] and [consume_batch] return what they would have
    returned and leave the ring they would have left, closed.  Pending
    items are not discarded. *)
Theorem close_keeps_items (config : Config) {T H : Type} (r : Ring.t T)
    (out : list T) (fuel : nat) (process : H → list T → Z → H) (h : H) :
  Ring.is_closed (Ring.close r) = true
  ∧ Ring.close (Ring.close r) = Ring.close r
  ∧ Ring.len (Ring.close r) = Ring.len r
  ∧ Ring.buffer_ (Ring.close r) = Ring.buffer_ r
  ∧ Ring.readable config (Ring.close r)
    = (let '(res, r') := Ring.readable config r in (res, Ring.close r'))
  ∧ Ring.recv config out (Ring.close r)
    = (let '(n, out', r') := Ring.recv config out r in (n, out', Ring.close r'))
  ∧ Ring.consume_batch config fuel process h (Ring.close r)
    = (λ '(n, h', r'), (n, h', Ring.close r'))
        <$> Ring.consume_batch config fuel process h r.
Proof.
  assert (Ring.readable config (Ring.close r)
          = (let '(res, r') := Ring.readable config r in (res, Ring.close r')))
    as Hreadable.
  { unfold Ring.readable. simpl.
    destruct (u64 (Ring.cached_tail_ r - Ring.head_ r) =? 0); [|done].
    destruct (u64 (Ring.tail_ r - Ring.head_ r) =? 0); done. }
  split_and!; [done..| |].
  - unfold Ring.recv. rewrite Hreadable.
    destruct (Ring.readable config r) as [[sl|] r']; [|done].
    f_equal. unfold Ring.advance, Ring.received_metrics.
    by destruct (enable_metrics config).
  - unfold Ring.consume_batch. simpl.
    destruct (u64 (Ring.tail_ r - Ring.head_ r) =? 0); [done|].
    destruct (Ring.consume_loop config fuel process (Ring.buffer_ r)
                (Ring.head_ r) (Ring.tail_ r) 0 h) as [[n h']|]; [|done].
    simpl. do 2 f_equal. unfold Ring.received_metrics.
    by destruct (enable_metrics config).
Qed.

(** ** reserve_with_backoff at its first attempt *)

(** On a closed ring that refuses the request, [reserve_with_backoff] gives
    up after that one attempt, without snoozing. *)
Theorem backoff_gives_up_on_closed (config : Config) {T : Type}
    (n : Z) (r : Ring.t T) (fuel : nat) :
  Ring.closed_ r = true → (Ring.reserve config n r).1 = None →
  Ring.reserve_with_backoff config (S fuel) (λ _ r, r) n r
  = Some (None, (Ring.reserve config n r).2, 1%nat).
Proof.
  intros Hclosed Hnone.
  unfold Ring.reserve_with_backoff. simpl.
  destruct (Ring.reserve config n r) as [res r1] eqn:E. simpl in Hnone. subst res.
  apply reserve_cases in E as [Hr1 _].
  assert (Ring.is_closed r1 = true) as ->; [|done].
  destruct Hr1 as [-> | ->]; done.
Qed.

(** Witness: the full 16-slot ring, closed. *)
Lemma backoff_gives_up_on_closed_witness :
  Ring.reserve_with_backoff cfg4 11 (λ _ r, r) 1 (Ring.close full_ring4)
  = Some (None, (Ring.reserve cfg4 1 (Ring.close full_ring4)).2, 1%nat).
Proof.
  apply (backoff_gives_up_on_closed cfg4 1 (Ring.close full_ring4) 10);
    reflexivity.
Defined.

(** ** Channel: close, metrics and consume_all *)

Section ChannelRest.
Context (config : Config) (Hcfg : config_ok config) {T : Type}.
Implicit Types (c : Channel.t T).

Lemma close_loop_lookup (todo : nat) :
  ∀ (i : Z) (rings : list (Ring.t T)) (j : nat),
    0 <= i →
    Channel.close_loop todo i rings !! j
    = if decide (Z.to_nat i ≤ j < Z.to_nat i + todo)%nat
      then Ring.close <$> rings !! j else rings !! j.
Proof.
  induction todo as [|todo IH]; intros i rings j Hi; simpl.
  { destruct (decide _); [lia|done]. }
  rewrite IH by lia.
  destruct (decide (Z.to_nat i = j)) as [<-|Hne].
  - rewrite list_lookup_alter_eq.
    destruct (decide _); [lia|]. destruct (decide _); [done|lia].
  - rewrite list_lookup_alter_ne by done.
    destruct (decide _), (decide _); (done || lia).
Qed.

(** [Channel::close] closes the channel and every registered ring, leaves
    the rings not yet registered, the count of producers and the contents
    of every ring alone, and makes every later [register_producer] return
    [Closed]; a second [close] changes nothing. *)
Theorem channel_close_closes c :
  channel_wf config c →
  let c' := Channel.close c in
  Channel.is_closed c' = true
  ∧ Channel.producer_count_ c' = Channel.producer_count_ c
  ∧ registered c' = Ring.close <$> registered c
  ∧ drop (Z.to_nat (Channel.producer_count_ c)) (Channel.rings_ c')
    = drop (Z.to_nat (Channel.producer_count_ c)) (Channel.rings_ c)
  ∧ Channel.register_producer config c' = (inl Channel.Closed, c')
  ∧ Channel.close c' = c'.
Proof.
  intros [Hlen Hcount] c'.
  split_and!; [done|done| | |done|apply close_idempotent].
  - unfold registered. simpl. apply list_eq. intros j.
    rewrite list_lookup_fmap.
    destruct (decide (j < Z.to_nat (Channel.producer_count_ c))%nat) as [Hj|Hj].
    + rewrite !lookup_take_lt by done. rewrite close_loop_lookup by lia.
      destruct (decide _); [done|lia].
    + by rewrite !lookup_take_ge by lia.
  - simpl. apply list_eq. intros j. rewrite !lookup_drop.
    rewrite close_loop_lookup by lia. destruct (decide _); [lia|done].
Qed.

Lemma u64_add_l (a b : Z) : u64 (u64 a + b) = u64 (a + b).
Proof. unfold u64. by rewrite Zplus_mod_idemp_l. Qed.

Lemma get_metrics_loop_sum (todo : nat) :
  ∀ (i : Z) (m : Metrics) (rings : list (Ring.t T)),
    0 <= i → (Z.to_nat i + todo ≤ length rings)%nat →
    let rms := Ring.get_metrics config <$> take todo (drop (Z.to_nat i) rings) in
    let m' := Channel.get_metrics_loop config todo i m rings in
    u64 (messages_sent m') = u64 (messages_sent m + sumZ (messages_sent <$> rms))
    ∧ u64 (messages_received m')
      = u64 (messages_received m + sumZ (messages_received <$> rms))
    ∧ u64 (batches_sent m') = u64 (batches_sent m + sumZ (batches_sent <$> rms))
    ∧ u64 (batches_received m')
      = u64 (batches_received m + sumZ (batches_received <$> rms))
    ∧ reserve_spins m' = reserve_spins m
    ∧ ((todo = 0)%nat → m' = m)
    ∧ ((0 < todo)%nat →
       0 <= messages_sent m' < 2 ^ 64 ∧ 0 <= messages_received m' < 2 ^ 64
       ∧ 0 <= batches_sent m' < 2 ^ 64 ∧ 0 <= batches_received m' < 2 ^ 64).
Proof.
  induction todo as [|todo IH]; intros i m rings Hi Hlen; simpl.
  { rewrite !Z.add_0_r. split_and!; (done || lia). }
  destruct (lookup_lt_is_Some_2 rings (Z.to_nat i)) as [r Hr]; [lia|].
  rewrite Hr. rewrite (drop_S _ r) by done. simpl.
  replace (S (Z.to_nat i)) with (Z.to_nat (i + 1)) by lia.
  destruct (IH (i + 1)
              (mkMetrics
                 (u64 (messages_sent m + messages_sent (Ring.get_metrics config r)))
                 (u64 (messages_received m
                       + messages_received (Ring.get_metrics config r)))
                 (u64 (batches_sent m + batches_sent (Ring.get_metrics config r)))
                 (u64 (batches_received m
                       + batches_received (Ring.get_metrics config r)))
                 (reserve_spins m)) rings ltac:(lia) ltac:(lia))
    as (H1 & H2 & H3 & H4 & H5 & H0 & Hpos).
  simpl in *. rewrite !u64_add_l, <- !Z.add_assoc in *.
  split_and!; [done..|lia|].
  intros _. destruct todo as [|todo].
  - rewrite (H0 eq_refl). simpl. split_and!; apply u64_range.
  - apply Hpos. lia.
Qed.

(** [Channel::get_metrics] adds up, modulo 2^64, the four message and batch
    counters of the registered rings; it never adds [reserve_spins], which
    stays 0; with metrics disabled it is all zeros. *)
Theorem channel_metrics_sum c :
  channel_wf config c →
  let m := Channel.get_metrics config c in
  let rms := Ring.get_metrics config <$> registered c in
  messages_sent m = u64 (sumZ (messages_sent <$> rms))
  ∧ messages_received m = u64 (sumZ (messages_received <$> rms))
  ∧ batches_sent m = u64 (sumZ (batches_sent <$> rms))
  ∧ batches_received m = u64 (sumZ (batches_received <$> rms))
  ∧ reserve_spins m = 0
  ∧ (enable_metrics config = false → m = no_metrics).
Proof.
  intros [Hlen Hcount] m rms.
  destruct (get_metrics_loop_sum (Z.to_nat (Channel.producer_count_ c)) 0
              no_metrics (Channel.rings_ c) ltac:(lia) ltac:(lia))
    as (H1 & H2 & H3 & H4 & H5 & H0 & Hpos).
  rewrite drop_0 in *. fold (registered c) in *. fold rms in H1, H2, H3, H4.
  fold (Channel.get_metrics config c) in *. fold m in H1, H2, H3, H4, H5, H0, Hpos.
  simpl in H1, H2, H3, H4, H5. rewrite Z.add_0_l in H1, H2, H3, H4.
  assert (messages_sent m = u64 (messages_sent m)
          ∧ messages_received m = u64 (messages_received m)
          ∧ batches_sent m = u64 (batches_sent m)
          ∧ batches_received m = u64 (batches_received m)) as (E1 & E2 & E3 & E4).
  { destruct (Z.to_nat (Channel.producer_count_ c)) as [|k] eqn:Ek.
    - rewrite (H0 eq_refl). done.
    - destruct Hpos as (? & ? & ? & ?); [lia|].
      rewrite !u64_small by done. done. }
  assert (messages_sent m = u64 (sumZ (messages_sent <$> rms))
          ∧ messages_received m = u64 (sumZ (messages_received <$> rms))
          ∧ batches_sent m = u64 (sumZ (batches_sent <$> rms))
          ∧ batches_received m = u64 (sumZ (batches_received <$> rms))
          ∧ reserve_spins m = 0) as Hsum.
  { split_and!; [congruence..|done]. }
  destruct Hsum as (S1 & S2 & S3 & S4 & S5).
  split_and!; [done..|].
  intros Hoff.
  assert (∀ f : Metrics → Z, f no_metrics = 0 → sumZ (f <$> rms) = 0) as Hzero.
  { intros f Hf. unfold rms. clear -Hoff Hf.
    induction (registered c) as [|r l IH]; [done|].
    rewrite !fmap_cons. unfold sumZ in *. simpl. rewrite IH.
    unfold Ring.get_metrics. rewrite Hoff, Hf. done. }
  rewrite !Hzero in S1, S2, S3, S4 by done.
  destruct m as [a b d e g]. simpl in *. by subst.
Qed.

End ChannelRest.

(** Witness: scenario S4's channel, closed. *)
Lemma channel_close_closes_witness :
  registered (Channel.close (two_producers cfg4))
  = Ring.close <$> registered (two_producers cfg4).
Proof.
  destruct (channel_close_closes cfg4 (two_producers cfg4)) as (_ & _ & H & _).
  - unfold channel_wf. vm_compute. split_and!; done.
  - exact H.
Defined.

(** Witness: a channel with metrics on, two producers, sends of 2 and of 3
    items. *)
Lemma channel_metrics_sum_witness :
  let cfg := mkConfig 4 2 true in
  let c := Channel.init cfg 0 in
  let c := (Channel.register_producer cfg c).2 in
  let c := (Channel.register_producer cfg c).2 in
  let c := (Channel.producer_send cfg (Channel.mkProducer 0 0) [10; 11] c).2 in
  let c := (Channel.producer_send cfg (Channel.mkProducer 1 1) [20; 21; 22] c).2 in
  messages_sent (Channel.get_metrics cfg c) = 5
  ∧ batches_sent (Channel.get_metrics cfg c) = 2.
Proof.
  intros cfg c0 c1 c2 c3 c.
  destruct (channel_metrics_sum cfg c) as (H1 & _ & H3 & _).
  - unfold channel_wf. vm_compute. split_and!; done.
  - rewrite H1, H3. split; reflexivity.
Defined.

Section ConsumeAll.
Context (config : Config) (Hcfg : config_ok config) {T H : Type}.
Context (process : H → list T → Z → H) (fuel : nat).

Lemma consume_batch_result (h : H) (r : Ring.t T) :
  0 <= Ring.head_ r < 2 ^ 64 → 0 <= Ring.tail_ r < 2 ^ 64 →
  (Z.to_nat (Ring.len r) ≤ fuel)%nat →
  ∃ r',
    Ring.consume_batch config fuel process h r
    = Some (Ring.len r, batch_fold config process h r, r')
    ∧ Ring.is_empty r' = true.
Proof.
  intros Hh Ht Hfuel. unfold Ring.len, batch_fold in *.
  unfold Ring.consume_batch.
  destruct (Z.eqb_spec (u64 (Ring.tail_ r - Ring.head_ r)) 0) as [E0|E0].
  - apply u64_sub_0 in E0 as E; [|done..].
    exists r. rewrite E0, <- E, positions_nil. simpl.
    unfold Ring.is_empty. by rewrite <- E, Z.eqb_refl.
  - pose proof (u64_range (Ring.tail_ r - Ring.head_ r)).
    rewrite (consume_loop_run config Hcfg) by (done || lia). simpl.
    eexists. split; [reflexivity|].
    unfold Ring.received_metrics, Ring.is_empty.
    destruct (enable_metrics config); simpl; by rewrite Z.eqb_refl.
Qed.

Lemma sumZ_len_nonneg (l : list (Ring.t T)) : 0 <= sumZ (Ring.len <$> l).
Proof.
  induction l as [|r l IH]; [done|].
  rewrite fmap_cons. unfold sumZ in *. simpl.
  pose proof (u64_range (Ring.tail_ r - Ring.head_ r)) as Hr.
  fold (Ring.len r) in Hr. lia.
Qed.

Lemma consume_all_loop_run (rings0 : list (Ring.t T)) (todo : nat) :
  ∀ (i total : Z) (h : H) (rings : list (Ring.t T)),
    let seg := take todo (drop (Z.to_nat i) rings0) in
    0 <= i → (Z.to_nat i + todo ≤ length rings0)%nat →
    length rings = length rings0 →
    (∀ j, (Z.to_nat i ≤ j)%nat → rings !! j = rings0 !! j) →
    Forall (λ r, ring_wf config r ∧ (Z.to_nat (Ring.len r) ≤ fuel)%nat) seg →
    0 <= total → total + sumZ (Ring.len <$> seg) < 2 ^ 64 →
    ∃ rings',
      Channel.consume_all_loop config todo fuel process i total h rings
      = Some (total + sumZ (Ring.len <$> seg),
              foldl (batch_fold config process) h seg, rings')
      ∧ length rings' = length rings0
      ∧ (∀ j, (Z.to_nat i + todo ≤ j)%nat → rings' !! j = rings0 !! j)
      ∧ (∀ j, (j < Z.to_nat i)%nat → rings' !! j = rings !! j)
      ∧ (∀ j, (Z.to_nat i ≤ j < Z.to_nat i + todo)%nat →
           ∃ r', rings' !! j = Some r' ∧ Ring.is_empty r' = true).
Proof.
  unfold sumZ. cbv zeta.
  induction todo as [|todo IH]; intros i total h rings Hi Hlen Hrl Hsame Hwf Ht Hsum.
  { exists rings. simpl.
    rewrite Z.add_0_r. split_and!; [done|done| |done|intros; lia].
    intros j Hj. apply Hsame. lia. }
  simpl. rewrite Hsame by lia.
  destruct (lookup_lt_is_Some_2 rings0 (Z.to_nat i)) as [r Hr]; [lia|].
  rewrite Hr. rewrite (drop_S _ r) in * by done.
  rewrite firstn_cons in *. rewrite fmap_cons in Hsum |- *.
  apply Forall_cons in Hwf as [[(Htr & Hhr & _) Hfuel] Hwf].
  destruct (consume_batch_result h r Hhr Htr Hfuel) as (r' & -> & Hempty).
  pose proof (sumZ_len_nonneg (take todo (drop (S (Z.to_nat i)) rings0))) as Hrest.
  pose proof (u64_range (Ring.tail_ r - Ring.head_ r)) as Hlr.
  fold (Ring.len r) in Hlr.
  unfold sumZ in Hrest. simpl in Hsum |- *.
  rewrite u64_small by lia.
  replace (S (Z.to_nat i)) with (Z.to_nat (i + 1)) in * by lia.
  destruct (IH (i + 1) (total + Ring.len r) (batch_fold config process h r)
              (<[Z.to_nat i := r']> rings))
    as (rings' & Hrun & Hlen' & Hafter & Hbefore & Hseg);
    [lia|lia|by rewrite length_insert| |done|lia| |].
  - intros j Hj. rewrite list_lookup_insert_ne by lia. apply Hsame. lia.
  - lia.
  - exists rings'. rewrite Hrun.
    split_and!; [f_equal; f_equal; f_equal; lia|done| | |].
    + intros j Hj. apply Hafter. lia.
    + intros j Hj. rewrite Hbefore by lia. by rewrite list_lookup_insert_ne by lia.
    + intros j Hj. destruct (decide (j = Z.to_nat i)) as [->|Hne].
      * exists r'. split; [|done].
        rewrite Hbefore by lia. apply list_lookup_insert_eq. lia.
      * apply Hseg. lia.
Qed.

(** [consume_all] drains the registered rings in index order: the handler
    goes through ring 0's pending cells, then ring 1's, and so on; the
    result is the number of items that were pending in all of them; every
    registered ring is empty afterwards and the other rings are left
    alone. *)
Theorem consume_all_drains (h : H) (c : Channel.t T) :
  channel_wf config c →
  Forall (λ r, ring_wf config r ∧ (Z.to_nat (Ring.len r) ≤ fuel)%nat)
    (registered c) →
  sumZ (Ring.len <$> registered c) < 2 ^ 64 →
  ∃ c',
    Channel.consume_all config fuel process h c
    = Some (sumZ (Ring.len <$> registered c),
            foldl (batch_fold config process) h (registered c), c')
    ∧ Channel.producer_count_ c' = Channel.producer_count_ c
    ∧ Forall (λ r, Ring.is_empty r = true) (registered c')
    ∧ drop (Z.to_nat (Channel.producer_count_ c)) (Channel.rings_ c')
      = drop (Z.to_nat (Channel.producer_count_ c)) (Channel.rings_ c).
Proof.
  intros [Hlen Hcount] Hwf Hsum. unfold registered in *.
  destruct (consume_all_loop_run (Channel.rings_ c)
              (Z.to_nat (Channel.producer_count_ c)) 0 0 h (Channel.rings_ c))
    as (rings' & Hrun & Hlen' & Hafter & _ & Hseg);
    [lia|lia|done|done|by rewrite drop_0|lia|by rewrite drop_0|].
  rewrite drop_0, Z.add_0_l in Hrun.
  unfold Channel.consume_all. rewrite Hrun.
  eexists. split; [reflexivity|]. simpl.
  split_and!; [done| |].
  - apply Forall_lookup. intros j r' Hj.
    apply lookup_take_Some in Hj as [Hj Hlt].
    destruct (Hseg j ltac:(lia)) as (r'' & Hj' & Hempty). congruence.
  - apply list_eq. intros j. rewrite !lookup_drop. apply Hafter. lia.
Qed.

End ConsumeAll.

(** Witness: two producers send [1, 2, 3] and [4, 5, 6]; [consume_all] with
    the summing handler on the two rings (scenario S5). *)
Lemma consume_all_drains_witness :
  let c := Channel.init cfg4 0 in
  let c := (Channel.register_producer cfg4 c).2 in
  let c := (Channel.register_producer cfg4 c).2 in
  let c := (Channel.producer_send cfg4 (Channel.mkProducer 0 0) [1; 2; 3] c).2 in
  let c := (Channel.producer_send cfg4 (Channel.mkProducer 1 1) [4; 5; 6] c).2 in
  ∃ c', Channel.consume_all cfg4 3 sum_cells 0 c = Some (6, 21, c').
Proof.
  intros c0 c1 c2 c3 c.
  destruct (consume_all_drains cfg4 cfg4_ok sum_cells 3 0 c)
    as (c' & Hrun & _).
  - unfold channel_wf. vm_compute. split_and!; done.
  - unfold registered.
    let l := eval vm_compute in (take (Z.to_nat (Channel.producer_count_ c))
                                   (Channel.rings_ c)) in
    change (take (Z.to_nat (Channel.producer_count_ c)) (Channel.rings_ c)) with l.
    repeat constructor; vm_compute; (done || lia).
  - by vm_compute.
  - exists c'. exact Hrun.
Defined.

(** ** A producer and a batch consumer *)

Section BatchFacts.
Context (config : Config) (Hcfg : config_ok config) {T : Type}.
Implicit Types (s : Session.t T) (r : Ring.t T).








End BatchFacts.



(** ** Metrics *)

Section MetricsFacts.
Context (config : Config) (Hcfg : config_ok config) {T : Type}.
Implicit Types (s : Session.t T) (r : Ring.t T).

Lemma track_same s r' rsv rd (sent' received' : list T) :
  metrics_track config s →
  Ring.metrics_ r' = Ring.metrics_ (Session.ring s) →
  length sent' = length (Session.sent s) →
  length received' = length (Session.received s) →
  metrics_track config (Session.mk r' rsv rd sent' received').
Proof.
  unfold metrics_track. simpl. intros Hm -> -> ->. done.
Qed.

Lemma track_commit s r0 rsv rd (k : list T) (n : Z) :
  metrics_track config s →
  Ring.metrics_ r0 = Ring.metrics_ (Session.ring s) →
  1 <= n → Z.of_nat (length (Session.sent s)) + n < 2 ^ 64 →
  Z.of_nat (length k) = n →
  metrics_track config
    (Session.mk (Ring.commit config n r0) rsv rd (Session.sent s ++ k)
       (Session.received s)).
Proof.
  unfold metrics_track, Ring.commit. simpl. intros Hm Hr0 Hn Hof Hk.
  destruct (enable_metrics config); simpl; rewrite Hr0; [|done].
  destruct Hm as (Hs & Hr & Hb & Hz).
  rewrite length_app, !u64_small by lia. split_and!; (done || lia).
Qed.

Lemma track_advance s r0 rsv rd (k : list T) (n : Z) :
  metrics_track config s →
  Ring.metrics_ r0 = Ring.metrics_ (Session.ring s) →
  0 <= n → Z.of_nat (length (Session.received s)) + n < 2 ^ 64 →
  Z.of_nat (length k) = n →
  metrics_track config
    (Session.mk (Ring.advance config n r0) rsv rd (Session.sent s)
       (Session.received s ++ k)).
Proof.
  unfold metrics_track, Ring.advance, Ring.received_metrics. simpl.
  intros Hm Hr0 Hn Hof Hk.
  destruct (enable_metrics config); simpl; rewrite Hr0; [|done].
  destruct Hm as (Hs & Hr & Hb & Hz).
  rewrite length_app, !u64_small by lia. split_and!; (done || lia).
Qed.

Lemma step_metrics s (o : Session.op T) s' :
  session_inv config s → metrics_track config s →
  Session.step config s o = Some s' →
  Z.of_nat (length (Session.sent s')) < 2 ^ 64 →
  metrics_track config s'.
Proof.
  intros Hinv Hm Hstep Hof.
  pose proof Hinv as [Ib Ich Ict Iroom Itail Iof Ihead Irecv Icells Irsv Ird].
  pose proof (CAPACITY_bounds config Hcfg) as Hcap.
  destruct o as [n|i v| |items| |n|out|]; simpl in Hstep.
  - destruct ((0 <=? n) && (n <? 2 ^ 64)); [|done].
    destruct (Ring.reserve config n (Session.ring s)) as [res r'] eqn:E.
    injection Hstep as <-. apply (track_same s); [done| |done|done].
    apply reserve_cases in E as [[-> | ->] _]; done.
  - destruct (Session.reservation s) as [x|]; [|done].
    destruct ((0 <=? i) && (i <? size (slice x))); [|done].
    injection Hstep as <-. by apply (track_same s).
  - destruct (Session.reservation s) as [x|] eqn:Hx; [|done].
    injection Hstep as <-. simpl in Hof.
    destruct (Irsv x eq_refl) as (Hpos & Hdata & Hsize & Hfit & Hroom).
    pose proof (index_range config Hcfg (Ring.tail_ (Session.ring s))) as Hidx.
    assert (Z.of_nat (length (span_read (Ring.buffer_ (Session.ring s)) (slice x)))
            = size (slice x)) as Hlen.
    { apply span_read_length; lia. }
    rewrite length_app in Hof.
    apply (track_commit s); (done || lia).
  - unfold Ring.send in Hstep.
    destruct (Ring.reserve config (Z.of_nat (length items)) (Session.ring s))
      as [[x|] r1] eqn:E.
    + apply reserve_cases in E as [Hr1 Hx].
      destruct (Hx x eq_refl) as (Hn0 & _ & _ & Hshape).
      pose proof (index_range config Hcfg (Ring.tail_ (Session.ring s))).
      assert (1 <= size (slice x) <= Z.of_nat (length items)) as Hsz.
      { rewrite Hshape. simpl. rewrite (land_MASK config Hcfg). lia. }
      destruct (Z.eqb_spec (size (slice x)) 0); [lia|].
      injection Hstep as <-. simpl in Hof. rewrite length_app in Hof.
      assert (Z.of_nat (length (take (Z.to_nat (size (slice x))) items))
              = size (slice x)) as Hk.
      { rewrite length_take. lia. }
      apply (track_commit s); [done| |lia|lia|done].
      destruct Hr1 as [-> | ->]; done.
    + injection Hstep as <-. simpl. rewrite app_nil_r.
      apply (track_same s); [done| |done|done].
      apply reserve_cases in E as [[-> | ->] _]; done.
  - destruct (Ring.readable config (Session.ring s)) as [res r'] eqn:E.
    injection Hstep as <-. apply (track_same s); [done| |done|done].
    apply (readable_cases config Hcfg) in E as ([-> | ->] & _); done.
  - destruct (Session.slice_read s) as [sl|] eqn:Hsl; [|done].
    destruct (Z.leb_spec 0 n); [|done].
    destruct (Z.leb_spec n (size sl)); [|done]. simpl in Hstep.
    injection Hstep as <-.
    destruct (Ird sl eq_refl) as (Hdata & Hsize & Hfit & Hle).
    pose proof (index_range config Hcfg (Ring.head_ (Session.ring s))).
    apply (track_advance s); [done|done|lia|lia|].
    unfold span_read. rewrite !length_take, length_drop. lia.
  - unfold Ring.recv in Hstep.
    destruct (Ring.readable config (Session.ring s)) as [[sl|] r1] eqn:E.
    + pose proof (readable_inv config Hcfg s _ _ Hinv E) as Hinv1.
      pose proof Hinv1 as [Ib1 _ Ict1 _ Itail1 _ Ihead1 _ _ _ Ird1].
      simpl in *.
      destruct (Ird1 sl eq_refl) as (Hdata & Hsize & Hfit & Hle).
      pose proof (index_range config Hcfg (Ring.head_ r1)).
      injection Hstep as <-.
      apply (track_advance s); [done| |lia|lia|].
      * apply (readable_cases config Hcfg) in E as ([-> | ->] & _); done.
      * unfold copy_to, span_read.
        rewrite length_take, length_inserts. lia.
    + injection Hstep as <-. simpl. rewrite app_nil_r.
      apply (track_same s); [done| |done|done].
      apply (readable_cases config Hcfg) in E as ([-> | ->] & _); done.
  - injection Hstep as <-. by apply (track_same s).
Qed.

Lemma run_metrics (ops : list (Session.op T)) :
  ∀ s s',
    session_inv config s → metrics_track config s →
    Session.run config s ops = Some s' →
    Z.of_nat (length (Session.sent s')) < 2 ^ 64 →
    metrics_track config s'.
Proof.
  induction ops as [|o ops IH]; intros s s' Hinv Hm Hrun Hof; simpl in Hrun.
  - by injection Hrun as <-.
  - destruct (Session.step config s o) as [s1|] eqn:E; [|done].
    pose proof (run_sent config ops s1 s' Hrun) as Hle.
    apply (IH s1); [| |done|done].
    + apply (step_inv config Hcfg s o); [done|done|lia].
    + apply (step_metrics s o); [done|done|done|lia].
Qed.

End MetricsFacts.

(** Metrics additivity on a ring: with metrics enabled, after any run of
    calls within the contract [messages_sent] is the number of items
    committed, [messages_received] the number consumed, there is at most
    one batch sent per item committed and [reserve_spins] is 0; with
    metrics disabled the counters are never written and [get_metrics]
    returns zeros. *)
Theorem ring_metrics_count (config : Config) {T : Type} (buf : list T)
    (ops : list (Session.op T)) (s : Session.t T) :
  config_ok config →
  length buf = Z.to_nat (Ring.CAPACITY config) →
  Session.run config (Session.init buf) ops = Some s →
  Z.of_nat (length (Session.sent s)) < 2 ^ 64 →
  let m := Ring.get_metrics config (Session.ring s) in
  messages_sent m
  = (if enable_metrics config then Z.of_nat (length (Session.sent s)) else 0)
  ∧ messages_received m
    = (if enable_metrics config then Z.of_nat (length (Session.received s))
       else 0)
  ∧ 0 <= batches_sent m <= messages_sent m
  ∧ reserve_spins m = 0
  ∧ (enable_metrics config = false → Ring.metrics_ (Session.ring s) = no_metrics).
Proof.
  intros Hcfg Hbuf Hrun Hof.
  assert (metrics_track config s) as Hm.
  { apply (run_metrics config Hcfg ops (Session.init buf)); [| |done|done].
    - by apply init_inv.
    - unfold metrics_track. simpl. by destruct (enable_metrics config). }
  unfold metrics_track, Ring.get_metrics in *.
  destruct (enable_metrics config); simpl.
  - destruct Hm as (-> & -> & Hb & ->). split_and!; (done || lia).
  - split_and!; (done || lia).
Qed.

(** Witness: scenario S1 with metrics enabled: four items in one batch. *)
Lemma ring_metrics_count_witness :
  let s := default (Session.init (replicate 16 0))
             (Session.run cfg4m (Session.init (replicate 16 0)) s1_calls) in
  messages_sent (Ring.get_metrics cfg4m (Session.ring s)) = 4
  ∧ messages_received (Ring.get_metrics cfg4m (Session.ring s)) = 4.
Proof.
  intros s.
  destruct (ring_metrics_count cfg4m (replicate 16 0) s1_calls s)
    as (Hs & Hr & _); [by vm_compute|evaluated..|].
  rewrite Hs, Hr. split; reflexivity.
Defined.
